(** * rmon: the route cache and the invalidation handlers of [rmon.c]

    A shallow embedding of the hash table of observed routes
    ([hash_function], [hash_table_insert], [hash_table_remove],
    [hash_table_find_by_ifindex]) and of the three netlink callbacks that
    drive it ([route_callback], [link_callback], [addr_callback]).

    Conventions of the embedding:
    - [int] and [unsigned int] are 32 bits wide, [size_t] is an unsigned
      machine word; all of them are carried by [Z], and every conversion to
      [unsigned int] is written out as a reduction modulo [2^32];
    - plain [char] is signed (gcc on x86-64 Linux, the platform of libnl);
    - a [char] buffer is a [string]; the functions that read it as a C string
      stop at the first NUL byte, the end of the [string] standing for the
      terminating NUL of the buffer;
    - a chain of [HashNode] is the list of the routes of its nodes, the
      bucket array is a list of chains; reading or writing [buckets[i]]
      outside the array has no defined behaviour in C and yields [None];
    - [malloc] in [hash_table_insert] may fail; its outcome is an explicit
      argument of the model;
    - standard output is a list of typed lines, with [render] giving the text
      that [printf] produces for each. *)

From Stdlib Require Import ZArith String Ascii DecimalString.
From stdpp Require Import base tactics option list numbers strings.

Local Open Scope Z_scope.

(** ** C strings *)

Definition is_nul (c : ascii) : bool := Ascii.eqb c Ascii.zero.

(** The value of a [char] read from a buffer, as an [unsigned char]. *)
Definition uchar_val (c : ascii) : Z := Z.of_N (N_of_ascii c).

(** The value of a plain (signed) [char]. *)
Definition char_val (c : ascii) : Z :=
  let n := uchar_val c in if n <? 128 then n else n - 256.

(** The characters of a buffer up to, and without, its first NUL. *)
Fixpoint c_str (s : string) : string :=
  match s with
  | EmptyString => EmptyString
  | String c rest => if is_nul c then EmptyString else String c (c_str rest)
  end.

(** [strcmp]: the difference of the first two bytes that differ, compared as
    [unsigned char]; [0] when both strings end together. *)
Fixpoint strcmp (s1 s2 : string) : Z :=
  match s1, s2 with
  | EmptyString, EmptyString => 0
  | EmptyString, String c2 _ => 0 - uchar_val c2
  | String c1 _, EmptyString => uchar_val c1 - 0
  | String c1 r1, String c2 r2 =>
      if Ascii.eqb c1 c2
      then (if is_nul c1 then 0 else strcmp r1 r2)
      else uchar_val c1 - uchar_val c2
  end.

(** A write of a C string into a buffer of [n] bytes that always leaves room
    for the terminating NUL ([strncpy (buf, s, n - 1)] followed by
    [buf[n - 1] = 0] into a zeroed buffer, or [nl_addr2str (a, buf, n)]). *)
Definition buf_store (n : nat) (s : string) : string :=
  string_of_list_ascii (take (n - 1) (list_ascii_of_string (c_str s))).

Definition INET6_ADDRSTRLEN : nat := 46.

(** ** Data model *)

(** The fields of [RouteInfo] keep their names; where a parameter of the
    same name is in scope they are written [Route.destination] and
    [Route.ifindex]. *)
Module Route.
Record RouteInfo := {
  destination : string;
  ifindex : Z;
  gateway : string;
  metric : Z
}.
End Route.
Export Route.

(** [HashTable]: [buckets] holds one chain per slot, [size] is the number of
    slots recorded at construction. *)
Record HashTable := {
  buckets : list (list RouteInfo);
  size : Z
}.

(** ** Machine arithmetic *)

Definition to_uint (z : Z) : Z := z mod 2 ^ 32.

(** ** The hash table *)

(** [hash_table_init]: [calloc] hands back [size] empty chains.  [None] is
    the [NULL] result of a failed allocation. *)
Definition hash_table_init (malloc_ok calloc_ok : bool) (size : Z)
  : option HashTable :=
  if negb malloc_ok then None
  else if negb calloc_ok then None
  else Some {| buckets := replicate (Z.to_nat size) []; size := size |}.

(** The loop of [hash_function]: [hash = hash * 31 + destination[i]] for
    every byte before the first NUL. *)
Fixpoint hash_loop (destination : string) (hash : Z) : Z :=
  match destination with
  | EmptyString => hash
  | String c rest =>
      if is_nul c then hash
      else hash_loop rest (to_uint (hash * 31 + char_val c))
  end.

(** [hash_function].  [size] is positive wherever the program calls it;
    with [size = 0] the C code divides by zero, and no property below is
    stated of that case. *)
Definition hash_function (destination : string) (ifindex : Z) (size : Z) : Z :=
  let hash := hash_loop destination 0 in
  let hash := to_uint (hash + ifindex) in
  to_uint (hash mod size).

(** [hash_table_insert]: the new node goes to the head of its bucket's chain.
    A failed [malloc] returns before any bucket is touched. *)
Definition hash_table_insert (node_ok : bool) (ht : HashTable)
    (route : RouteInfo) : option HashTable :=
  let index := Z.to_nat
    (hash_function route.(destination) route.(ifindex) ht.(size)) in
  if negb node_ok then Some ht
  else
    next ← ht.(buckets) !! index;
    Some {| buckets := <[index := route :: next]> ht.(buckets);
            size := ht.(size) |}.

(** The test of the loop of [hash_table_remove]. *)
Definition key_match (destination : string) (ifindex : Z)
    (node : RouteInfo) : bool :=
  (strcmp (Route.destination node) destination =? 0)
  && (Route.ifindex node =? ifindex).

(** The loop of [hash_table_remove] over one chain: unlink the first node
    whose key matches and stop. *)
Fixpoint chain_remove (current : list RouteInfo) (destination : string)
    (ifindex : Z) : list RouteInfo :=
  match current with
  | [] => []
  | node :: next =>
      if key_match destination ifindex node then next
      else node :: chain_remove next destination ifindex
  end.

Definition hash_table_remove (ht : HashTable) (destination : string)
    (ifindex : Z) : option HashTable :=
  let index := Z.to_nat (hash_function destination ifindex ht.(size)) in
  current ← ht.(buckets) !! index;
  Some {| buckets := <[index := chain_remove current destination ifindex]>
                       ht.(buckets);
          size := ht.(size) |}.

(** A callback of [hash_table_find_by_ifindex] receives a pointer to the
    route stored in the node: it may write through it, and it acts on the
    world [W] around the table. *)
Definition callback (W : Type) : Type := RouteInfo → W → RouteInfo * W.

(** The inner [while] of [hash_table_find_by_ifindex] over one chain. *)
Fixpoint chain_visit {W} (ifindex : Z) (cb : callback W)
    (current : list RouteInfo) (w : W) : list RouteInfo * W :=
  match current with
  | [] => ([], w)
  | node :: next =>
      let '(node', w1) :=
        if Route.ifindex node =? ifindex then cb node w else (node, w) in
      let '(next', w2) := chain_visit ifindex cb next w1 in
      (node' :: next', w2)
  end.

(** The outer [for] of [hash_table_find_by_ifindex]: [n] iterations are
    left, the next one reads [buckets[i]]. *)
Fixpoint find_loop {W} (n i : nat) (ifindex : Z) (cb : callback W)
    (ht : HashTable) (w : W) : option (HashTable * W) :=
  match n with
  | O => Some (ht, w)
  | S n' =>
      current ← ht.(buckets) !! i;
      let '(current', w') := chain_visit ifindex cb current w in
      find_loop n' (S i) ifindex cb
        {| buckets := <[i := current']> ht.(buckets); size := ht.(size) |} w'
  end.

Definition hash_table_find_by_ifindex {W} (ht : HashTable) (ifindex : Z)
    (cb : callback W) (w : W) : option (HashTable * W) :=
  find_loop (Z.to_nat ht.(size)) 0 ifindex cb ht w.

(** ** Output *)

Inductive Line :=
  | RouteAdded (dst : string) (oif : Z) (gw : string) (metric : Z)
  | RouteDeleted (dst : string) (oif : Z) (gw : string) (metric : Z)
  | RouteInvalidated (dst : string) (oif : Z) (gw : string) (metric : Z)
  | LinkAdded (index : Z)
  | LinkDeleted (index : Z)
  | AddressDeleted (addr : string) (index : Z)
  | Stderr (text : string).

(** [%d] *)
Definition fmt_d (z : Z) : string := NilZero.string_of_int (Z.to_int z).
(** [%s] *)
Definition fmt_s (s : string) : string := c_str s.

Definition newline : string := String (ascii_of_nat 10) EmptyString.

Definition render_route (what : string) (dst : string) (oif : Z)
    (gw : string) (metric : Z) : string :=
  (what +:+ ": destination: " +:+ fmt_s dst +:+ " oif: " +:+ fmt_d oif
     +:+ " gateway: " +:+ fmt_s gw +:+ " metric: " +:+ fmt_d metric
     +:+ newline)%string.

(** The text each line puts on its stream. *)
Definition render (l : Line) : string :=
  match l with
  | RouteAdded d i g m => render_route "Route added" d i g m
  | RouteDeleted d i g m => render_route "Route deleted" d i g m
  | RouteInvalidated d i g m => render_route "Route invalidated" d i g m
  | LinkAdded i => "Link added, index: " +:+ fmt_d i +:+ newline
  | LinkDeleted i => "Link deleted, index: " +:+ fmt_d i +:+ newline
  | AddressDeleted a i =>
      "Address deleted: " +:+ fmt_s a +:+ " on interface " +:+ fmt_d i
        +:+ newline
  | Stderr t => t +:+ newline
  end%string.

(** [print_invalidated_route]: one line from the four fields of the route;
    the route itself is only read. *)
Definition print_invalidated_route : callback (list Line) :=
  fun route out =>
    (route,
     out ++ [RouteInvalidated route.(destination) route.(ifindex)
               route.(gateway) route.(metric)]).

(** ** Netlink messages, as libnl hands them to the callbacks *)

(** [nlmsg_type] of a message header: the six types the callbacks test
    for, and any other value. *)
Inductive nlmsg_type :=
  | RTM_NEWLINK | RTM_DELLINK
  | RTM_NEWADDR | RTM_DELADDR
  | RTM_NEWROUTE | RTM_DELROUTE
  | RTM_other (n : Z).

#[global] Instance nlmsg_type_eq_dec : EqDecision nlmsg_type.
Proof. solve_decision. Defined.

Inductive nl_cb_action := NL_OK | NL_SKIP.

(** Conversion of an unsigned 32-bit value to [int]. *)
Definition to_int (z : Z) : Z := (z + 2 ^ 31) mod 2 ^ 32 - 2 ^ 31.

(** The first nexthop of a parsed route: [rtnl_route_nh_get_ifindex] and
    [rtnl_route_nh_get_gateway] (the text of the gateway, absent when the
    nexthop has none). *)
Record nexthop := {
  nh_ifindex : Z;
  nh_gateway : option string
}.

Record route_msg := {
  route_nlmsg_type : nlmsg_type;
  route_alloc : bool;             (* rtnl_route_alloc gave an object *)
  route_parse : Z;                (* the result of rtnl_route_parse *)
  route_errtext : string;         (* nl_geterror of that result *)
  route_dst : option string;      (* rtnl_route_get_dst, as text *)
  route_nexthop : option nexthop; (* rtnl_route_nexthop_n (route, 0) *)
  route_priority : Z              (* rtnl_route_get_priority, a uint32_t *)
}.

Record link_msg := {
  link_nlmsg_type : nlmsg_type;
  link_data : option Z            (* nlmsg_data (nlh), then ifi->ifi_index *)
}.

(** One attribute of an address message: its type and the address that
    [nl_addr_build] makes of its payload, as text ([None]: no address was
    built). *)
Record rtattr := {
  rta_type : Z;
  rta_addr : option string
}.

Definition IFA_ADDRESS : Z := 1.
Definition IFA_LOCAL : Z := 2.

Record ifaddrmsg := {
  ifa_index : Z;                  (* an unsigned 32-bit field *)
  ifa_attrs : list rtattr         (* the attributes after the header *)
}.

Record addr_msg := {
  addr_nlmsg_type : nlmsg_type;
  addr_data : option ifaddrmsg    (* nlmsg_data (nlh) *)
}.

(** ** The callbacks *)

Definition cb_result : Type := nl_cb_action * HashTable * list Line.

Definition route_callback (msg : route_msg) (node_ok : bool)
    (ht : HashTable) (out : list Line) : option cb_result :=
  let type := msg.(route_nlmsg_type) in
  let dst_str := "unknown"%string in
  let gw_str := "none"%string in
  let ifindex := -1 in
  if bool_decide (type ≠ RTM_NEWROUTE) && bool_decide (type ≠ RTM_DELROUTE)
  then Some (NL_SKIP, ht, out)
  else if negb msg.(route_alloc)
  then Some (NL_OK, ht, out ++ [Stderr "Failed to allocate route object"])
  else if msg.(route_parse) <? 0
  then Some (NL_OK, ht,
             out ++ [Stderr ("Failed to parse route: " +:+ msg.(route_errtext))])
  else
    let dst_str :=
      match msg.(route_dst) with
      | Some dst => buf_store INET6_ADDRSTRLEN dst
      | None => dst_str
      end in
    let '(ifindex, gw_str) :=
      match msg.(route_nexthop) with
      | Some nh =>
          (nh.(nh_ifindex),
           match nh.(nh_gateway) with
           | Some gw => buf_store INET6_ADDRSTRLEN gw
           | None => gw_str
           end)
      | None => (ifindex, gw_str)
      end in
    let metric := to_int msg.(route_priority) in
    if bool_decide (type = RTM_NEWROUTE) then
      let new_route :=
        {| destination := buf_store INET6_ADDRSTRLEN dst_str;
           Route.ifindex := ifindex;
           gateway := buf_store INET6_ADDRSTRLEN gw_str;
           Route.metric := metric |} in
      ht' ← hash_table_insert node_ok ht new_route;
      Some (NL_OK, ht', out ++ [RouteAdded dst_str ifindex gw_str metric])
    else if bool_decide (type = RTM_DELROUTE) then
      ht' ← hash_table_remove ht dst_str ifindex;
      Some (NL_OK, ht', out ++ [RouteDeleted dst_str ifindex gw_str metric])
    else Some (NL_OK, ht, out).

Definition link_callback (msg : link_msg) (ht : HashTable)
    (out : list Line) : option cb_result :=
  let type := msg.(link_nlmsg_type) in
  if bool_decide (type ≠ RTM_NEWLINK) && bool_decide (type ≠ RTM_DELLINK)
  then Some (NL_SKIP, ht, out)
  else
    match msg.(link_data) with
    | None => Some (NL_OK, ht, out ++ [Stderr "Failed to get link data"])
    | Some ifindex =>
        if bool_decide (type = RTM_NEWLINK)
        then Some (NL_OK, ht, out ++ [LinkAdded ifindex])
        else if bool_decide (type = RTM_DELLINK) then
          '(ht', out') ← hash_table_find_by_ifindex ht ifindex
                           print_invalidated_route
                           (out ++ [LinkDeleted ifindex]);
          Some (NL_OK, ht', out')
        else Some (NL_OK, ht, out)
    end.

(** The attribute walk of [addr_callback]: the address of the first
    [IFA_LOCAL] or [IFA_ADDRESS] attribute, whatever [nl_addr_build] made of
    it. *)
Fixpoint first_address (rta : list rtattr) : option string :=
  match rta with
  | [] => None
  | a :: rest =>
      if (a.(rta_type) =? IFA_LOCAL) || (a.(rta_type) =? IFA_ADDRESS)
      then a.(rta_addr)
      else first_address rest
  end.

Definition addr_callback (msg : addr_msg) (ht : HashTable)
    (out : list Line) : option cb_result :=
  if bool_decide (msg.(addr_nlmsg_type) ≠ RTM_DELADDR)
  then Some (NL_SKIP, ht, out)
  else
    match msg.(addr_data) with
    | None => Some (NL_OK, ht, out ++ [Stderr "Failed to get address data"])
    | Some ifa =>
        let ifindex := to_int ifa.(ifa_index) in
        match first_address ifa.(ifa_attrs) with
        | Some addr =>
            let addr_str := buf_store INET6_ADDRSTRLEN addr in
            '(ht', out') ← hash_table_find_by_ifindex ht ifindex
                             print_invalidated_route
                             (out ++ [AddressDeleted addr_str ifindex]);
            Some (NL_OK, ht', out')
        | None => Some (NL_OK, ht, out)
        end
    end.

Definition HASH_SIZE : Z := 128.

(** ** The engine's two invalidation entry points *)

(** A link-deleted event for interface [I]. *)
Definition link_deleted (I : Z) : link_msg :=
  {| link_nlmsg_type := RTM_DELLINK; link_data := Some I |}.

(** An address-deleted event: address [A] leaves interface [I]; the
    message carries the index in its unsigned 32-bit field. *)
Definition addr_deleted (I : Z) (A : string) : addr_msg :=
  {| addr_nlmsg_type := RTM_DELADDR;
     addr_data := Some {| ifa_index := to_uint I;
                          ifa_attrs := [{| rta_type := IFA_LOCAL;
                                           rta_addr := Some A |}] |} |}.

Definition on_link_removed (I : Z) (ht : HashTable) (out : list Line)
  : option cb_result := link_callback (link_deleted I) ht out.

Definition on_address_removed (I : Z) (A : string) (ht : HashTable)
    (out : list Line) : option cb_result :=
  addr_callback (addr_deleted I A) ht out.

(** ** Vocabulary of the properties *)

(** Every route stored in the table, bucket after bucket, each chain from
    its head: the order in which [hash_table_find_by_ifindex] walks it. *)
Definition entries (ht : HashTable) : list RouteInfo := concat ht.(buckets).

(** A table as [hash_table_init] builds it and the operations keep it: it
    has [size] buckets, and at least one. *)
Definition wf_table (ht : HashTable) : Prop :=
  0 < ht.(size) ∧ Z.of_nat (length ht.(buckets)) = ht.(size).

(** Every node sits in the bucket its key hashes to. *)
Definition well_placed (ht : HashTable) : Prop :=
  ∀ i chain r,
    ht.(buckets) !! i = Some chain → r ∈ chain →
    Z.to_nat (hash_function r.(destination) r.(ifindex) ht.(size)) = i.

(** The values of an [int]. *)
Definition int_range (z : Z) : Prop := - 2 ^ 31 ≤ z < 2 ^ 31.

(** The routes of [l] owned by interface [I], in the order of [l]. *)
Definition owned_by (I : Z) (l : list RouteInfo) : list RouteInfo :=
  filter (λ r, r.(ifindex) = I) l.

(** The line [print_invalidated_route] writes for a route. *)
Definition invalidated (r : RouteInfo) : Line :=
  RouteInvalidated r.(destination) r.(ifindex) r.(gateway) r.(metric).

(** The hash of [hash_function] before any reduction: the polynomial in 31
    of the bytes of the string, over the integers. *)
Fixpoint poly31 (destination : string) (acc : Z) : Z :=
  match destination with
  | EmptyString => acc
  | String c rest =>
      if is_nul c then acc else poly31 rest (acc * 31 + char_val c)
  end.

(** What the scan of [hash_table_find_by_ifindex] makes of a run of
    consecutive buckets: the chains as the callback leaves them, and the
    world after the last call. *)
Fixpoint buckets_visit {W} (ifindex : Z) (cb : callback W)
    (bs : list (list RouteInfo)) (w : W) : list (list RouteInfo) * W :=
  match bs with
  | [] => ([], w)
  | current :: rest =>
      let '(current', w1) := chain_visit ifindex cb current w in
      let '(rest', w2) := buckets_visit ifindex cb rest w1 in
      (current' :: rest', w2)
  end.

(** The number of nodes of the table that [hash_table_remove] would take
    for the key [(destination, ifindex)]. *)
Definition key_count (destination : string) (ifindex : Z)
    (ht : HashTable) : nat :=
  length (filter (λ r, key_match destination ifindex r = true) (entries ht)).

(** *** Sequences of cache operations *)

Inductive cache_op :=
  | OpInsert (node_ok : bool) (route : RouteInfo)
  | OpRemove (destination : string) (ifindex : Z).

Definition apply_op (ht : HashTable) (op : cache_op) : option HashTable :=
  match op with
  | OpInsert node_ok route => hash_table_insert node_ok ht route
  | OpRemove destination ifindex => hash_table_remove ht destination ifindex
  end.

Fixpoint run_ops (ops : list cache_op) (ht : HashTable) : option HashTable :=
  match ops with
  | [] => Some ht
  | op :: rest => ht' ← apply_op ht op; run_ops rest ht'
  end.

(** [op] inserts a route of key [(destination, ifindex)]. *)
Definition inserts_key (destination : string) (ifindex : Z)
    (op : cache_op) : bool :=
  match op with
  | OpInsert _ route => key_match destination ifindex route
  | OpRemove _ _ => false
  end.

(** [op] asks to remove the key [(destination, ifindex)]. *)
Definition removes_key (destination : string) (ifindex : Z)
    (op : cache_op) : bool :=
  match op with
  | OpInsert _ _ => false
  | OpRemove d i => (strcmp d destination =? 0) && (i =? ifindex)
  end.

Fixpoint count_ops (f : cache_op → bool) (ops : list cache_op) : nat :=
  match ops with
  | [] => O
  | op :: rest => ((if f op then 1 else 0) + count_ops f rest)%nat
  end.

(** The inserts of a key not yet taken back by a remove, after [ops], when
    [n] were outstanding before: an insert adds one, a remove takes one away
    if there is one. *)
Fixpoint pending (destination : string) (ifindex : Z)
    (ops : list cache_op) (n : nat) : nat :=
  match ops with
  | [] => n
  | op :: rest =>
      pending destination ifindex rest
        (if inserts_key destination ifindex op then S n
         else if removes_key destination ifindex op then Nat.pred n
         else n)
  end.

(** *** Sample data *)

(** The table of [main]: [hash_table_init (HASH_SIZE)] with both
    allocations granted. *)
Definition empty_table : HashTable :=
  {| buckets := replicate (Z.to_nat HASH_SIZE) []; size := HASH_SIZE |}.

(** The table [ops] makes of the empty one. *)
Definition table_of (ops : list cache_op) : HashTable :=
  default empty_table (run_ops ops empty_table).

Definition route_a : RouteInfo :=
  {| destination := "10.0.0.0/24"; ifindex := 3;
     gateway := "192.168.1.1"; metric := 100 |}.

(** The key of [route_a] with another metric. *)
Definition route_a2 : RouteInfo :=
  {| destination := "10.0.0.0/24"; ifindex := 3;
     gateway := "192.168.1.1"; metric := 200 |}.

Definition route_b : RouteInfo :=
  {| destination := "10.0.1.0/24"; ifindex := 4;
     gateway := "192.168.2.1"; metric := 50 |}.

(** A directly connected route of interface 3. *)
Definition route_c : RouteInfo :=
  {| destination := "172.16.0.0/16"; ifindex := 3;
     gateway := "none"; metric := 10 |}.

(** A route message for the key of [route_a], of the given type and
    priority. *)
Definition msg_route_a (type : nlmsg_type) (priority : Z) : route_msg :=
  {| route_nlmsg_type := type; route_alloc := true;
     route_parse := 0; route_errtext := "";
     route_dst := Some "10.0.0.0/24"%string;
     route_nexthop :=
       Some {| nh_ifindex := 3;
               nh_gateway := Some "192.168.1.1"%string |};
     route_priority := priority |}.

(** A route message without nexthop: [route_callback] stores its route
    under the interface index [-1]. *)
Definition msg_no_nexthop : route_msg :=
  {| route_nlmsg_type := RTM_NEWROUTE; route_alloc := true;
     route_parse := 0; route_errtext := "";
     route_dst := Some "10.0.2.0/24"%string; route_nexthop := None;
     route_priority := 0 |}.

Definition route_unknown : RouteInfo :=
  {| destination := "10.0.2.0/24"; ifindex := -1;
     gateway := "none"; metric := 0 |}.

(** ** The rest of the program: release of the table and [main] *)

(** What [hash_table_free] hands to [free], call after call. *)
Inductive freed :=
  | FreedNode (route : RouteInfo)
  | FreedBuckets
  | FreedTable.

(** The inner [while] of [hash_table_free] over one chain. *)
Fixpoint free_chain (current : list RouteInfo) : list freed :=
  match current with
  | [] => []
  | node :: next => FreedNode node :: free_chain next
  end.

(** The outer [for] of [hash_table_free]: [n] iterations are left, the next
    one reads [buckets[i]]. *)
Fixpoint free_loop (n i : nat) (ht : HashTable) : option (list freed) :=
  match n with
  | O => Some []
  | S n' =>
      current ← ht.(buckets) !! i;
      rest ← free_loop n' (S i) ht;
      Some (free_chain current ++ rest)
  end.

(** [hash_table_free]: [None] as argument is the [NULL] pointer; the result
    lists the calls of [free]. *)
Definition hash_table_free (ht : option HashTable) : option (list freed) :=
  match ht with
  | None => Some []
  | Some ht =>
      nodes ← free_loop (Z.to_nat ht.(size)) 0 ht;
      Some (nodes ++ [FreedBuckets; FreedTable])
  end.

(** What one call of [nl_recvmsgs_default] on a socket brings: the messages
    libnl hands, in order, to the callback installed on the socket (it goes
    on to the next message after [NL_OK] and after [NL_SKIP]), and the
    result of the call. *)
Record recv (M : Type) := {
  recv_msgs : list M;
  recv_ret : Z
}.
Arguments recv_msgs {M} _.
Arguments recv_ret {M} _.

(** One return of [select]: its result, the text [perror] finds for [errno],
    and for each socket whose descriptor is set what receiving on it
    brings.  A route message comes with the outcome of the [malloc] its
    insert would make. *)
Record wakeup := {
  select_ret : Z;
  select_errtext : string;
  route_ready : option (recv (route_msg * bool));
  link_ready : option (recv link_msg);
  addr_ready : option (recv addr_msg)
}.

(** The callback runs on every message of a batch. *)
Fixpoint deliver {M} (cb : M → HashTable → list Line → option cb_result)
    (msgs : list M) (ht : HashTable) (out : list Line)
  : option (HashTable * list Line) :=
  match msgs with
  | [] => Some (ht, out)
  | msg :: rest =>
      '(_, ht', out') ← cb msg ht out;
      deliver cb rest ht' out'
  end.

(** [if (FD_ISSET (fd, &fds)) if (nl_recvmsgs_default (sock) < 0) fprintf
    ...]; [errtext] is [nl_geterror (-1)]. *)
Definition recv_on {M} (cb : M → HashTable → list Line → option cb_result)
    (what errtext : string) (ready : option (recv M))
    (ht : HashTable) (out : list Line) : option (HashTable * list Line) :=
  match ready with
  | None => Some (ht, out)
  | Some r =>
      '(ht', out') ← deliver cb r.(recv_msgs) ht out;
      if r.(recv_ret) <? 0
      then Some (ht', out' ++ [Stderr ("Failed to receive " +:+ what
                                       +:+ " messages: " +:+ errtext)])
      else Some (ht', out')
  end.

Definition route_cb (m : route_msg * bool) := route_callback m.1 m.2.

(** How the loop of [main] stands when the wake-ups at hand are used up:
    left by [break], or back in [select]. *)
Inductive loop_state := LoopBroke | LoopWaiting.

(** The [while (1)] of [main] over the wake-ups that occur. *)
Fixpoint main_loop (errtext : string) (ws : list wakeup) (ht : HashTable)
    (out : list Line) : option (loop_state * HashTable * list Line) :=
  match ws with
  | [] => Some (LoopWaiting, ht, out)
  | w :: rest =>
      if w.(select_ret) <? 0
      then Some (LoopBroke, ht,
                 out ++ [Stderr ("select failed: " +:+ w.(select_errtext))])
      else
        '(ht1, out1) ← recv_on route_cb "route" errtext w.(route_ready) ht out;
        '(ht2, out2) ← recv_on link_callback "link" errtext w.(link_ready)
                         ht1 out1;
        '(ht3, out3) ← recv_on addr_callback "addr" errtext w.(addr_ready)
                         ht2 out2;
        main_loop errtext rest ht3 out3
  end.

Inductive sock := route_sock | link_sock | addr_sock.

#[global] Instance sock_eq_dec : EqDecision sock.
Proof. solve_decision. Defined.

(** What [main] does that can be seen from outside. *)
Inductive main_event :=
  | Printed (text : string)       (* a line on standard output *)
  | Said (l : Line)               (* a line of the callbacks, or on stderr *)
  | TableInit                     (* hash_table_init gave a table *)
  | TableFree (calls : list freed)(* hash_table_free *)
  | SockAlloc (s : sock)          (* nl_socket_alloc gave a socket *)
  | SockFree (s : sock).          (* nl_socket_free *)

Inductive exit_code := EXIT_SUCCESS | EXIT_FAILURE.

(** The outcomes of the library calls of the set-up of [main]. *)
Record setup_env := {
  malloc_table : bool;
  calloc_buckets : bool;
  alloc_route_sock : bool;
  alloc_link_sock : bool;
  alloc_addr_sock : bool;
  connect_route : Z;
  connect_link : Z;
  connect_addr : Z;
  join_route : Z;                 (* nl_socket_add_membership, route group *)
  join_link : Z;
  join_addr : Z;
  geterror : string               (* nl_geterror (-1) *)
}.

(** [main] returns with an exit code, is still waiting in [select] when the
    wake-ups at hand are used up, or has left the bucket array. *)
Inductive main_result :=
  | Exited (code : exit_code) (trace : list main_event)
  | Blocked (trace : list main_event)
  | Undefined.

(** The ways out of [main]: free the sockets allocated so far, then the
    table. *)
Definition leave (code : exit_code) (trace : list main_event)
    (socks : list sock) (ht : HashTable) : main_result :=
  match hash_table_free (Some ht) with
  | None => Undefined
  | Some calls =>
      Exited code (trace ++ map SockFree socks ++ [TableFree calls])
  end.

Definition main (env : setup_env) (ws : list wakeup) : main_result :=
  match hash_table_init env.(malloc_table) env.(calloc_buckets) HASH_SIZE with
  | None => Exited EXIT_FAILURE [Said (Stderr "Can't init a hash table")]
  | Some ht =>
  let t0 := [TableInit] in
  if negb env.(alloc_route_sock) then
    leave EXIT_FAILURE
      (t0 ++ [Said (Stderr "Unable to allocate a route socket")]) [] ht
  else
  let t1 := t0 ++ [SockAlloc route_sock] in
  if negb env.(alloc_link_sock) then
    leave EXIT_FAILURE
      (t1 ++ [Said (Stderr "Unable to allocate a link socket")])
      [route_sock] ht
  else
  let t2 := t1 ++ [SockAlloc link_sock] in
  if negb env.(alloc_addr_sock) then
    leave EXIT_FAILURE
      (t2 ++ [Said (Stderr "Unable to allocate an address socket")])
      [route_sock; link_sock] ht
  else
  let t3 := t2 ++ [SockAlloc addr_sock] in
  let socks := [route_sock; link_sock; addr_sock] in
  if (env.(connect_route) <? 0) || (env.(connect_link) <? 0)
     || (env.(connect_addr) <? 0) then
    leave EXIT_FAILURE
      (t3 ++ [Said (Stderr ("Unable to connect to a socket: "
                            +:+ env.(geterror)))])
      socks ht
  else
  if env.(join_route) <? 0 then
    leave EXIT_SUCCESS
      (t3 ++ [Said (Stderr "Unable to join IPv4 route group")]) socks ht
  else
  let t4 := t3 ++ [Printed "Subscribed to IPv4 route group"] in
  if env.(join_link) <? 0 then
    leave EXIT_SUCCESS
      (t4 ++ [Said (Stderr "Unable to join link group")]) socks ht
  else
  let t5 := t4 ++ [Printed "Subscribed to link group"] in
  if env.(join_addr) <? 0 then
    leave EXIT_SUCCESS
      (t5 ++ [Said (Stderr "Unable to join IPv4 address group")]) socks ht
  else
  let t6 := t5 ++ [Printed "Subscribed to IPv4 address group"] in
  match main_loop env.(geterror) ws ht [] with
  | None => Undefined
  | Some (LoopWaiting, _, out) => Blocked (t6 ++ map Said out)
  | Some (LoopBroke, ht', out) =>
      leave EXIT_SUCCESS (t6 ++ map Said out) socks ht'
  end
  end.

(** ** The second program: the monitor over libnl's cache manager *)

Module CacheMngr.

Definition AF_INET : Z := 2.

(** A route object of libnl's route cache, as the accessors show it:
    [rtnl_route_get_family], [rtnl_route_get_dst] (as text),
    [rtnl_route_nexthop_n (route, 0)], [rtnl_route_get_priority]. *)
Record rtnl_route := {
  rt_family : Z;
  rt_dst : option string;
  rt_nexthop : option nexthop;
  rt_priority : Z
}.

(** The [action] of a change callback. *)
Inductive nl_act :=
  | NL_ACT_NEW | NL_ACT_DEL | NL_ACT_CHANGE | NL_ACT_other (n : Z).

(** The lines of this program: those of the first one, and two more. *)
Inductive cm_line :=
  | Common (l : Line)
  | RouteChanged (dst : string) (oif : Z) (gw : string) (metric : Z)
  | LinkChanged (index : Z).

(** The locals of [check_routes_for_ifindex] that live across the
    iterations of its loop. *)
Record scan_locals := {
  dst_str : string;
  gw_str : string;
  route_ifindex : Z
}.

(** One iteration of the loop of [check_routes_for_ifindex]. *)
Definition check_route (ifindex : Z) (route : rtnl_route) (st : scan_locals)
    (out : list Line) : scan_locals * list Line :=
  if negb (route.(rt_family) =? AF_INET) then (st, out)
  else
    let dst_str :=
      match route.(rt_dst) with
      | Some dst => buf_store INET6_ADDRSTRLEN dst
      | None => st.(dst_str)
      end in
    let '(route_ifindex, gw_str) :=
      match route.(rt_nexthop) with
      | Some nh =>
          (nh.(nh_ifindex),
           match nh.(nh_gateway) with
           | Some gw => buf_store INET6_ADDRSTRLEN gw
           | None => st.(gw_str)
           end)
      | None => (st.(route_ifindex), st.(gw_str))
      end in
    let metric := to_int route.(rt_priority) in
    ({| dst_str := dst_str; gw_str := gw_str;
        route_ifindex := route_ifindex |},
     if route_ifindex =? ifindex
     then out ++ [RouteInvalidated dst_str route_ifindex gw_str metric]
     else out).

Fixpoint check_routes_loop (ifindex : Z) (objs : list rtnl_route)
    (st : scan_locals) (out : list Line) : list Line :=
  match objs with
  | [] => out
  | obj :: rest =>
      let '(st', out') := check_route ifindex obj st out in
      check_routes_loop ifindex rest st' out'
  end.

Definition check_routes_for_ifindex (route_cache : list rtnl_route)
    (ifindex : Z) (out : list Line) : list Line :=
  check_routes_loop ifindex route_cache
    {| dst_str := "unknown"; gw_str := "none"; route_ifindex := -1 |} out.

Definition route_change (route : rtnl_route) (action : nl_act)
    (out : list cm_line) : list cm_line :=
  let dst_str := "unknown"%string in
  let gw_str := "none"%string in
  let ifindex := -1 in
  if negb (route.(rt_family) =? AF_INET) then out
  else
    let dst_str :=
      match route.(rt_dst) with
      | Some dst => buf_store INET6_ADDRSTRLEN dst
      | None => dst_str
      end in
    let '(ifindex, gw_str) :=
      match route.(rt_nexthop) with
      | Some nh =>
          (nh.(nh_ifindex),
           match nh.(nh_gateway) with
           | Some gw => buf_store INET6_ADDRSTRLEN gw
           | None => gw_str
           end)
      | None => (ifindex, gw_str)
      end in
    let metric := to_int route.(rt_priority) in
    match action with
    | NL_ACT_NEW => out ++ [Common (RouteAdded dst_str ifindex gw_str metric)]
    | NL_ACT_DEL => out ++ [Common (RouteDeleted dst_str ifindex gw_str metric)]
    | NL_ACT_CHANGE => out ++ [RouteChanged dst_str ifindex gw_str metric]
    | NL_ACT_other _ => out
    end.

(** [link_change]: [ifindex] is [rtnl_link_get_ifindex (link)]. *)
Definition link_change (route_cache : list rtnl_route) (ifindex : Z)
    (action : nl_act) (out : list cm_line) : list cm_line :=
  match action with
  | NL_ACT_NEW => out ++ [Common (LinkAdded ifindex)]
  | NL_ACT_DEL =>
      out ++ Common (LinkDeleted ifindex)
          :: map Common (check_routes_for_ifindex route_cache ifindex [])
  | NL_ACT_CHANGE => out ++ [LinkChanged ifindex]
  | NL_ACT_other _ => out
  end.

(** [addr_change]: [ifindex] is [rtnl_addr_get_ifindex (addr)], [local] is
    [rtnl_addr_get_local (addr)] as text. *)
Definition addr_change (route_cache : list rtnl_route) (ifindex : Z)
    (local : option string) (action : nl_act) (out : list cm_line)
  : list cm_line :=
  match action with
  | NL_ACT_DEL =>
      match local with
      | Some a =>
          let addr_str := buf_store INET6_ADDRSTRLEN a in
          out ++ Common (AddressDeleted addr_str ifindex)
              :: map Common (check_routes_for_ifindex route_cache ifindex [])
      | None => out
      end
  | _ => out
  end.

(** The route of the first program's cache that a cache-manager route
    with destination, nexthop and gateway stands for. *)
Definition route_info_of (route : rtnl_route) : RouteInfo :=
  {| destination :=
       buf_store INET6_ADDRSTRLEN (default "unknown"%string route.(rt_dst));
     Route.ifindex := default (-1) (nh_ifindex <$> route.(rt_nexthop));
     gateway :=
       buf_store INET6_ADDRSTRLEN
         (default "none"%string (route.(rt_nexthop) ≫= nh_gateway));
     Route.metric := to_int route.(rt_priority) |}.

(** An IPv4 route that shows its destination, a nexthop and the gateway of
    that nexthop. *)
Definition complete (route : rtnl_route) : bool :=
  (route.(rt_family) =? AF_INET)
  && match route.(rt_dst), route.(rt_nexthop) with
     | Some _, Some nh => bool_decide (is_Some nh.(nh_gateway))
     | _, _ => false
     end.

End CacheMngr.

(** ** Vocabulary of the further properties *)

(** The route [route_callback] makes of a message that parses: the
    defaults of its locals where the message shows no destination, no
    nexthop or no gateway. *)
Definition route_of_msg (msg : route_msg) : RouteInfo :=
  {| destination :=
       match msg.(route_dst) with
       | Some dst => buf_store INET6_ADDRSTRLEN dst
       | None => "unknown"%string
       end;
     Route.ifindex :=
       match msg.(route_nexthop) with
       | Some nh => nh.(nh_ifindex)
       | None => -1
       end;
     gateway :=
       match msg.(route_nexthop) with
       | Some {| nh_gateway := Some gw |} => buf_store INET6_ADDRSTRLEN gw
       | _ => "none"%string
       end;
     Route.metric := to_int msg.(route_priority) |}.

(** A message that [route_callback] takes up and decodes. *)
Definition decodes (msg : route_msg) : bool :=
  msg.(route_alloc) && negb (msg.(route_parse) <? 0).

(** A string that fills a [char] array of [INET6_ADDRSTRLEN] bytes with
    its terminating NUL and has no NUL before it. *)
Definition fits_buffer (s : string) : Prop :=
  (String.length s < INET6_ADDRSTRLEN)%nat ∧ c_str s = s.

Definition fits_buffers (r : RouteInfo) : Prop :=
  fits_buffer r.(destination) ∧ fits_buffer r.(gateway).

(** A table of [n] buckets as the program keeps it: every node in the
    bucket of its key, every stored string within its array. *)
Definition cache_state (n : Z) (ht : HashTable) : Prop :=
  wf_table ht ∧ well_placed ht ∧ ht.(size) = n
  ∧ ∀ r, r ∈ entries ht → fits_buffers r.

(** What [main] may hold: the table and the three sockets. *)
Inductive resource := ResTable | ResSock (s : sock).

#[global] Instance resource_eq_dec : EqDecision resource.
Proof. solve_decision. Defined.

(** The resources held after a trace by a program that held [h] before it;
    [None] when the trace frees what is not held or allocates what is. *)
Fixpoint held (trace : list main_event) (h : list resource)
  : option (list resource) :=
  match trace with
  | [] => Some h
  | e :: rest =>
      let acquire r :=
        if bool_decide (r ∈ h) then None else held rest (r :: h) in
      let release r :=
        if bool_decide (r ∈ h)
        then held rest (filter (λ x, x ≠ r) h) else None in
      match e with
      | TableInit => acquire ResTable
      | TableFree _ => release ResTable
      | SockAlloc s => acquire (ResSock s)
      | SockFree s => release (ResSock s)
      | Printed _ | Said _ => held rest h
      end
  end.

(** The set-up failures after which [main] returns [EXIT_FAILURE]. *)
Definition setup_fails (env : setup_env) : bool :=
  negb (env.(malloc_table) && env.(calloc_buckets)
        && env.(alloc_route_sock) && env.(alloc_link_sock)
        && env.(alloc_addr_sock))
  || (env.(connect_route) <? 0) || (env.(connect_link) <? 0)
  || (env.(connect_addr) <? 0).

(** A group that [main] fails to join. *)
Definition join_fails (env : setup_env) : bool :=
  (env.(join_route) <? 0) || (env.(join_link) <? 0) || (env.(join_addr) <? 0).

(** *** Failing receives *)

(** The call of [nl_recvmsgs_default] on a socket that is ready returned a
    negative result. *)
Definition receive_failed {M} (ready : option (recv M)) : bool :=
  match ready with
  | Some r => r.(recv_ret) <? 0
  | None => false
  end.

(** The same messages, received with result [0]. *)
Definition recv_succeeding {M} (ready : option (recv M)) : option (recv M) :=
  match ready with
  | Some r => Some {| recv_msgs := r.(recv_msgs); recv_ret := 0 |}
  | None => None
  end.

(** The wake-up with the same [select] result and the same messages on
    every socket, no call of [nl_recvmsgs_default] failing. *)
Definition all_received (w : wakeup) : wakeup :=
  {| select_ret := w.(select_ret);
     select_errtext := w.(select_errtext);
     route_ready := recv_succeeding w.(route_ready);
     link_ready := recv_succeeding w.(link_ready);
     addr_ready := recv_succeeding w.(addr_ready) |}.

(** The failing receives among the wake-ups the loop gets to: those before
    the first failing [select]. *)
Fixpoint failed_receives (ws : list wakeup) : nat :=
  match ws with
  | [] => O
  | w :: rest =>
      if w.(select_ret) <? 0 then O
      else ((if receive_failed w.(route_ready) then 1 else 0)
            + (if receive_failed w.(link_ready) then 1 else 0)
            + (if receive_failed w.(addr_ready) then 1 else 0)
            + failed_receives rest)%nat
  end.

(** The line [main] prints on standard error when receiving fails. *)
Definition receive_failure (what errtext : string) : Line :=
  Stderr ("Failed to receive " +:+ what +:+ " messages: " +:+ errtext).

(** [with_recv_failures errtext full quiet]: the lines [full] are the lines
    [quiet], in order, with lines "Failed to receive route (link, addr)
    messages" put in between; nothing else differs. *)
Inductive with_recv_failures (errtext : string)
  : list Line → list Line → Prop :=
  | wrf_nil : with_recv_failures errtext [] []
  | wrf_same l full quiet :
      with_recv_failures errtext full quiet →
      with_recv_failures errtext (l :: full) (l :: quiet)
  | wrf_failure what full quiet :
      what ∈ ["route"; "link"; "addr"]%string →
      with_recv_failures errtext full quiet →
      with_recv_failures errtext (receive_failure what errtext :: full) quiet.

(** What [main] has done when it enters its loop. *)
Definition setup_trace : list main_event :=
  [TableInit; SockAlloc route_sock; SockAlloc link_sock; SockAlloc addr_sock;
   Printed "Subscribed to IPv4 route group";
   Printed "Subscribed to link group";
   Printed "Subscribed to IPv4 address group"].

(** *** Sample runs *)

(** A set-up in which every call succeeds. *)
Definition env_ok : setup_env :=
  {| malloc_table := true; calloc_buckets := true;
     alloc_route_sock := true; alloc_link_sock := true;
     alloc_addr_sock := true;
     connect_route := 0; connect_link := 0; connect_addr := 0;
     join_route := 0; join_link := 0; join_addr := 0;
     geterror := "Unspecific failure" |}.

(** The route socket brings the route-added message of [route_a]. *)
Definition wakeup_route_a_added : wakeup :=
  {| select_ret := 1; select_errtext := "";
     route_ready :=
       Some {| recv_msgs := [(msg_route_a RTM_NEWROUTE 100, true)];
               recv_ret := 0 |};
     link_ready := None; addr_ready := None |}.

(** The link socket brings the link-deleted message of interface 3. *)
Definition wakeup_link_3_deleted : wakeup :=
  {| select_ret := 1; select_errtext := "";
     route_ready := None;
     link_ready := Some {| recv_msgs := [link_deleted 3]; recv_ret := 0 |};
     addr_ready := None |}.

Definition wakeup_select_fails : wakeup :=
  {| select_ret := -1; select_errtext := "Interrupted system call";
     route_ready := None; link_ready := None; addr_ready := None |}.

(** The route socket brings the route-added message of [route_a], and
    receiving on it fails after that. *)
Definition wakeup_route_recv_fails : wakeup :=
  {| select_ret := 1; select_errtext := "";
     route_ready :=
       Some {| recv_msgs := [(msg_route_a RTM_NEWROUTE 100, true)];
               recv_ret := -1 |};
     link_ready := None; addr_ready := None |}.

(** A route message that fails to parse. *)
Definition msg_unparsable : route_msg :=
  {| route_nlmsg_type := RTM_NEWROUTE; route_alloc := true;
     route_parse := -5; route_errtext := "Out of memory";
     route_dst := None; route_nexthop := None; route_priority := 0 |}.

(** Routes of the cache manager: [route_a] and [route_b] as libnl shows
    them, an IPv6 route, and an IPv4 route without nexthop. *)
Definition cm_route_a : CacheMngr.rtnl_route :=
  {| CacheMngr.rt_family := CacheMngr.AF_INET;
     CacheMngr.rt_dst := Some "10.0.0.0/24"%string;
     CacheMngr.rt_nexthop :=
       Some {| nh_ifindex := 3; nh_gateway := Some "192.168.1.1"%string |};
     CacheMngr.rt_priority := 100 |}.

Definition cm_route_b : CacheMngr.rtnl_route :=
  {| CacheMngr.rt_family := CacheMngr.AF_INET;
     CacheMngr.rt_dst := Some "10.0.1.0/24"%string;
     CacheMngr.rt_nexthop :=
       Some {| nh_ifindex := 4; nh_gateway := Some "192.168.2.1"%string |};
     CacheMngr.rt_priority := 50 |}.

Definition cm_route_v6 : CacheMngr.rtnl_route :=
  {| CacheMngr.rt_family := 10;
     CacheMngr.rt_dst := Some "fe80::/64"%string;
     CacheMngr.rt_nexthop := Some {| nh_ifindex := 3; nh_gateway := None |};
     CacheMngr.rt_priority := 256 |}.

Definition cm_route_bare : CacheMngr.rtnl_route :=
  {| CacheMngr.rt_family := CacheMngr.AF_INET;
     CacheMngr.rt_dst := Some "10.0.9.0/24"%string;
     CacheMngr.rt_nexthop := None;
     CacheMngr.rt_priority := 7 |}.

(** * Properties *)

(** ** C strings and the hash *)

Lemma to_uint_range z : 0 ≤ to_uint z < 2 ^ 32.
Proof. unfold to_uint. apply Z.mod_pos_bound. lia. Qed.

Lemma to_uint_small z : 0 ≤ z < 2 ^ 32 → to_uint z = z.
Proof. intros. unfold to_uint. by apply Z.mod_small. Qed.

Lemma to_int_to_uint z : int_range z → to_int (to_uint z) = z.
Proof.
  unfold int_range, to_int, to_uint. intros Hz.
  rewrite Zplus_mod_idemp_l.
  rewrite Z.mod_small; lia.
Qed.

Lemma is_nul_true c : is_nul c = true ↔ c = Ascii.zero.
Proof. unfold is_nul. apply Ascii.eqb_eq. Qed.

Lemma uchar_val_inj c1 c2 : uchar_val c1 = uchar_val c2 → c1 = c2.
Proof.
  unfold uchar_val. intros H. apply N2Z.inj in H.
  rewrite <- (ascii_N_embedding c1), <- (ascii_N_embedding c2). by rewrite H.
Qed.

Lemma uchar_val_zero c : uchar_val c = 0 → c = Ascii.zero.
Proof. intros H. by apply uchar_val_inj. Qed.

(** [strcmp] returns [0] exactly on buffers that hold the same C string. *)
Lemma strcmp_zero s1 s2 : strcmp s1 s2 = 0 ↔ c_str s1 = c_str s2.
Proof.
  revert s2. induction s1 as [|c1 r1 IH]; intros [|c2 r2]; simpl.
  - done.
  - destruct (is_nul c2) eqn:E.
    + apply is_nul_true in E as ->. done.
    + split; [|done]. intros H.
      assert (c2 = Ascii.zero) as -> by (apply uchar_val_zero; lia). done.
  - destruct (is_nul c1) eqn:E.
    + apply is_nul_true in E as ->. done.
    + split; [|done]. intros H.
      assert (c1 = Ascii.zero) as -> by (apply uchar_val_zero; lia). done.
  - destruct (Ascii.eqb c1 c2) eqn:E.
    + apply Ascii.eqb_eq in E as ->.
      destruct (is_nul c2); [done|].
      rewrite IH. split; [by intros ->|]. by intros [=].
    + apply Ascii.eqb_neq in E.
      split.
      * intros H. destruct E. apply uchar_val_inj. lia.
      * destruct (is_nul c1) eqn:E1, (is_nul c2) eqn:E2; try done.
        -- apply is_nul_true in E1, E2. congruence.
        -- intros [= -> _]. done.
  Qed.

Lemma hash_loop_c_str s h : hash_loop (c_str s) h = hash_loop s h.
Proof.
  revert h. induction s as [|c r IH]; intros h; simpl; [done|].
  destruct (is_nul c) eqn:E; simpl; [done|]. by rewrite E, IH.
Qed.

Lemma hash_function_c_str s i n :
  hash_function (c_str s) i n = hash_function s i n.
Proof. unfold hash_function. by rewrite hash_loop_c_str. Qed.

(** Keys that [hash_table_remove] takes for equal hash to the same bucket. *)
Lemma key_match_hash d i r n :
  key_match d i r = true →
  hash_function r.(destination) r.(ifindex) n = hash_function d i n.
Proof.
  unfold key_match. intros [H1 H2]%andb_true_iff.
  apply Z.eqb_eq in H1, H2. apply strcmp_zero in H1.
  rewrite <- (hash_function_c_str (destination r)), H1, H2.
  apply hash_function_c_str.
Qed.

Lemma hash_loop_poly31 s h :
  hash_loop s (to_uint h) = to_uint (poly31 s h).
Proof.
  revert h. induction s as [|c r IH]; intros h; simpl.
  - done.
  - destruct (is_nul c); [done|].
    rewrite <- IH. f_equal. unfold to_uint.
    rewrite <- (Zplus_mod_idemp_l (h * 31)), <- (Zmult_mod_idemp_l h).
    by rewrite Zplus_mod_idemp_l.
Qed.

Lemma hash_function_bound d i n :
  0 < n → 0 ≤ hash_function d i n < n ∧ hash_function d i n < 2 ^ 32.
Proof.
  intros Hn. unfold hash_function.
  pose proof (to_uint_range (hash_loop d 0 + i)) as Hr.
  pose proof (Z.mod_pos_bound (to_uint (hash_loop d 0 + i)) n Hn) as Hm.
  assert (to_uint (hash_loop d 0 + i) `mod` n ≤ to_uint (hash_loop d 0 + i))
    by (apply Z.mod_le; lia).
  rewrite to_uint_small by lia. lia.
Qed.

(** ** The scan *)

Section scan.
Context {W : Type} (I : Z) (cb : callback W).

(** The world after a chain: the callback ran on the owned routes, in
    chain order, once each. *)
Lemma chain_visit_world chain w :
  (chain_visit I cb chain w).2
  = foldl (λ w r, (cb r w).2) w (owned_by I chain).
Proof.
  revert w. induction chain as [|r chain IH]; intros w; simpl; [done|].
  unfold owned_by. rewrite filter_cons.
  destruct (Z.eqb_spec (ifindex r) I) as [E|E].
  - rewrite decide_True by done. simpl.
    destruct (cb r w) as [r' w1] eqn:Ecb. simpl.
    specialize (IH w1). destruct (chain_visit I cb chain w1). simpl in *.
    done.
  - rewrite decide_False by done.
    specialize (IH w). destruct (chain_visit I cb chain w). simpl in *.
    done.
Qed.

(** A callback that only reads its route leaves the chain as it was. *)
Lemma chain_visit_chain chain w :
  (∀ r w, (cb r w).1 = r) → (chain_visit I cb chain w).1 = chain.
Proof.
  intros Hcb. revert w.
  induction chain as [|r chain IH]; intros w; simpl; [done|].
  destruct (ifindex r =? I).
  - pose proof (Hcb r w) as Hr. destruct (cb r w) as [r' w1]. simpl in Hr.
    specialize (IH w1). destruct (chain_visit I cb chain w1). simpl in *.
    congruence.
  - specialize (IH w). destruct (chain_visit I cb chain w). simpl in *.
    congruence.
Qed.

Lemma buckets_visit_world bs w :
  (buckets_visit I cb bs w).2
  = foldl (λ w r, (cb r w).2) w (owned_by I (concat bs)).
Proof.
  revert w. induction bs as [|c bs IH]; intros w; simpl; [done|].
  unfold owned_by. rewrite filter_app, foldl_app.
  pose proof (chain_visit_world c w) as Hc.
  destruct (chain_visit I cb c w) as [c' w1]. simpl in Hc.
  specialize (IH w1). destruct (buckets_visit I cb bs w1). simpl in *.
  by rewrite IH, Hc.
Qed.

Lemma buckets_visit_buckets bs w :
  (∀ r w, (cb r w).1 = r) → (buckets_visit I cb bs w).1 = bs.
Proof.
  intros Hcb. revert w.
  induction bs as [|c bs IH]; intros w; simpl; [done|].
  pose proof (chain_visit_chain c w Hcb) as Hc.
  destruct (chain_visit I cb c w) as [c' w1]. simpl in Hc.
  specialize (IH w1). destruct (buckets_visit I cb bs w1). simpl in *.
  congruence.
Qed.

(** The [for] loop, started at bucket [length pre] with [length rest]
    iterations to go, never leaves the array and visits [rest]. *)
Lemma find_loop_buckets rest pre s w :
  find_loop (length rest) (length pre) I cb
    {| buckets := pre ++ rest; size := s |} w
  = Some ({| buckets := pre ++ (buckets_visit I cb rest w).1; size := s |},
          (buckets_visit I cb rest w).2).
Proof.
  revert pre w. induction rest as [|c rest IH]; intros pre w; simpl.
  - done.
  - rewrite list_lookup_middle by done. simpl.
    destruct (chain_visit I cb c w) as [c' w1].
    replace (<[length pre:=c']> (pre ++ c :: rest))
      with ((pre ++ [c']) ++ rest).
    2:{ rewrite <- (Nat.add_0_r (length pre)), insert_app_r. simpl.
        by rewrite <- app_assoc. }
    replace (S (length pre)) with (length (pre ++ [c']))
      by (rewrite length_app; simpl; lia).
    rewrite IH. destruct (buckets_visit I cb rest w1). simpl.
    by rewrite <- app_assoc.
Qed.

Lemma find_by_ifindex_spec ht w :
  wf_table ht →
  hash_table_find_by_ifindex ht I cb w
  = Some ({| buckets := (buckets_visit I cb ht.(buckets) w).1;
             size := ht.(size) |},
          foldl (λ w r, (cb r w).2) w (owned_by I (entries ht))).
Proof.
  intros [_ Hlen]. unfold hash_table_find_by_ifindex, entries.
  rewrite <- buckets_visit_world.
  destruct ht as [bs s]. simpl in *. subst s. rewrite Nat2Z.id.
  apply (find_loop_buckets bs [] (Z.of_nat (length bs)) w).
Qed.
End scan.

Lemma foldl_print_invalidated l out :
  foldl (λ w r, (print_invalidated_route r w).2) out l
  = out ++ map invalidated l.
Proof.
  revert out. induction l as [|r l IH]; intros out; simpl.
  - by rewrite app_nil_r.
  - rewrite IH. by rewrite <- app_assoc.
Qed.

(** A scan with [print_invalidated_route] returns the table it was given
    and one line for every owned route. *)
Lemma find_by_ifindex_print ht I out :
  wf_table ht →
  hash_table_find_by_ifindex ht I print_invalidated_route out
  = Some (ht, out ++ map invalidated (owned_by I (entries ht))).
Proof.
  intros Hwf. rewrite find_by_ifindex_spec by done.
  rewrite buckets_visit_buckets by done.
  rewrite foldl_print_invalidated. by destruct ht.
Qed.

Lemma on_link_removed_spec ht I out :
  wf_table ht →
  on_link_removed I ht out
  = Some (NL_OK, ht,
          out ++ LinkDeleted I :: map invalidated (owned_by I (entries ht))).
Proof.
  intros Hwf. unfold on_link_removed, link_callback. simpl.
  rewrite find_by_ifindex_print by done. simpl.
  by rewrite <- app_assoc.
Qed.

Lemma on_address_removed_spec ht I A out :
  wf_table ht → int_range I →
  on_address_removed I A ht out
  = Some (NL_OK, ht,
          out ++ AddressDeleted (buf_store INET6_ADDRSTRLEN A) I
              :: map invalidated (owned_by I (entries ht))).
Proof.
  intros Hwf HI. unfold on_address_removed, addr_callback. simpl.
  rewrite to_int_to_uint by done.
  rewrite find_by_ifindex_print by done. simpl.
  by rewrite <- app_assoc.
Qed.

(** ** Buckets *)

Lemma bucket_in_range ht d i :
  wf_table ht →
  is_Some (ht.(buckets) !! Z.to_nat (hash_function d i ht.(size))).
Proof.
  intros [Hpos Hlen]. apply lookup_lt_is_Some.
  pose proof (hash_function_bound d i _ Hpos). lia.
Qed.

(** The routes of the table around one bucket, before and after that bucket
    is overwritten. *)
Lemma concat_bucket (bs : list (list RouteInfo)) i c :
  bs !! i = Some c →
  concat bs = concat (take i bs) ++ c ++ concat (drop (S i) bs)
  ∧ ∀ c', concat (<[i:=c']> bs)
          = concat (take i bs) ++ c' ++ concat (drop (S i) bs).
Proof.
  intros Hi. split.
  - rewrite <- (take_drop_middle bs i c Hi) at 1.
    by rewrite concat_app.
  - intros c'. rewrite insert_take_drop by (by eapply lookup_lt_Some).
    by rewrite concat_app.
Qed.

Lemma elem_of_entries ht r :
  r ∈ entries ht ↔ ∃ i chain, ht.(buckets) !! i = Some chain ∧ r ∈ chain.
Proof.
  unfold entries. rewrite list_elem_of_In, in_concat. split.
  - intros (chain & Hc & Hr). apply list_elem_of_In in Hc, Hr.
    apply list_elem_of_lookup in Hc as [i Hi]. eauto.
  - intros (i & chain & Hi & Hr). exists chain.
    split; apply list_elem_of_In; [|done].
    apply list_elem_of_lookup. eauto.
Qed.

(** ** Insert *)

Lemma hash_table_insert_spec ht r :
  wf_table ht →
  ∃ next,
    ht.(buckets) !! Z.to_nat (hash_function r.(destination) r.(ifindex)
                                ht.(size)) = Some next
    ∧ hash_table_insert true ht r
      = Some {| buckets :=
                  <[Z.to_nat (hash_function r.(destination) r.(ifindex)
                                ht.(size)) := r :: next]> ht.(buckets);
                size := ht.(size) |}.
Proof.
  intros Hwf.
  destruct (bucket_in_range ht r.(destination) r.(ifindex) Hwf) as [next Hn].
  exists next. split; [done|].
  unfold hash_table_insert. simpl. by rewrite Hn.
Qed.

Lemma hash_table_insert_failed ht r : hash_table_insert false ht r = Some ht.
Proof. done. Qed.

Lemma hash_table_insert_entries ht r ht' :
  wf_table ht → hash_table_insert true ht r = Some ht' →
  wf_table ht' ∧ ht'.(size) = ht.(size) ∧ entries ht' ≡ₚ r :: entries ht.
Proof.
  intros Hwf Hins.
  destruct (hash_table_insert_spec ht r Hwf) as (next & Hn & Heq).
  rewrite Heq in Hins. injection Hins as <-.
  destruct (concat_bucket _ _ _ Hn) as [Hold Hnew].
  split_and!.
  - destruct Hwf as [Hpos Hlen]. split; simpl; [done|].
    by rewrite length_insert.
  - done.
  - unfold entries. simpl. rewrite Hold, Hnew. simpl.
    symmetry. apply Permutation_middle.
Qed.

Lemma hash_table_insert_well_placed ht r ht' :
  wf_table ht → well_placed ht → hash_table_insert true ht r = Some ht' →
  well_placed ht'.
Proof.
  intros Hwf Hwp Hins.
  destruct (hash_table_insert_spec ht r Hwf) as (next & Hn & Heq).
  rewrite Heq in Hins. injection Hins as <-.
  intros i chain x Hi Hx. simpl in *.
  destruct (decide
    (i = Z.to_nat (hash_function (destination r) (ifindex r) (size ht))))
    as [->|Hne].
  - rewrite list_lookup_insert_eq in Hi by (by eapply lookup_lt_Some).
    injection Hi as <-.
    apply elem_of_cons in Hx as [->|Hx]; [done|]. by eapply Hwp.
  - rewrite list_lookup_insert_ne in Hi by done. by eapply Hwp.
Qed.

(** ** Remove *)

Lemma key_match_c_str d d' i r :
  c_str d = c_str d' → key_match d i r = key_match d' i r.
Proof.
  intros Hd. unfold key_match. f_equal.
  destruct (Z.eqb_spec (strcmp (destination r) d) 0) as [E|E],
           (Z.eqb_spec (strcmp (destination r) d') 0) as [E'|E'];
    try done; rewrite strcmp_zero in *; congruence.
Qed.

Lemma chain_remove_none chain d i :
  (∀ r, r ∈ chain → key_match d i r = false) → chain_remove chain d i = chain.
Proof.
  induction chain as [|x chain IH]; intros H; simpl; [done|].
  rewrite (H x) by left. f_equal. apply IH. intros r Hr. apply H. by right.
Qed.

Lemma chain_remove_first chain d i :
  (∃ r, r ∈ chain ∧ key_match d i r = true) →
  ∃ pre r post,
    chain = pre ++ r :: post
    ∧ key_match d i r = true
    ∧ (∀ x, x ∈ pre → key_match d i x = false)
    ∧ chain_remove chain d i = pre ++ post.
Proof.
  induction chain as [|x chain IH]; intros (r & Hr & Hm).
  - by apply elem_of_nil in Hr.
  - simpl. destruct (key_match d i x) eqn:Ex.
    + exists [], x, chain. split_and!; try done.
      intros y Hy. by apply elem_of_nil in Hy.
    + apply elem_of_cons in Hr as [->|Hr]; [congruence|].
      destruct IH as (pre & r' & post & -> & Hm' & Hpre & Hrem); [eauto|].
      exists (x :: pre), r', post. split_and!; try done.
      * intros y [->|Hy]%elem_of_cons; auto.
      * simpl. by rewrite Hrem.
Qed.

Lemma chain_remove_subseteq chain d i r :
  r ∈ chain_remove chain d i → r ∈ chain.
Proof.
  induction chain as [|x chain IH]; simpl; [done|].
  destruct (key_match d i x).
  - by right.
  - intros [->|H]%elem_of_cons; [left|right; auto].
Qed.

Lemma hash_table_remove_spec ht d i :
  wf_table ht →
  ∃ current,
    ht.(buckets) !! Z.to_nat (hash_function d i ht.(size)) = Some current
    ∧ hash_table_remove ht d i
      = Some {| buckets := <[Z.to_nat (hash_function d i ht.(size))
                             := chain_remove current d i]> ht.(buckets);
                size := ht.(size) |}.
Proof.
  intros Hwf. destruct (bucket_in_range ht d i Hwf) as [current Hc].
  exists current. split; [done|].
  unfold hash_table_remove. simpl. by rewrite Hc.
Qed.

Lemma hash_table_remove_invariant ht d i ht' :
  wf_table ht → well_placed ht → hash_table_remove ht d i = Some ht' →
  wf_table ht' ∧ well_placed ht' ∧ ht'.(size) = ht.(size).
Proof.
  intros Hwf Hwp Hrem.
  destruct (hash_table_remove_spec ht d i Hwf) as (current & Hc & Heq).
  rewrite Heq in Hrem. injection Hrem as <-.
  split_and!.
  - destruct Hwf as [Hpos Hlen]. split; simpl; [done|].
    by rewrite length_insert.
  - intros j chain x Hj Hx. simpl in *.
    destruct (decide (j = Z.to_nat (hash_function d i (size ht))))
      as [->|Hne].
    + rewrite list_lookup_insert_eq in Hj by (by eapply lookup_lt_Some).
      injection Hj as <-. apply chain_remove_subseteq in Hx. by eapply Hwp.
    + rewrite list_lookup_insert_ne in Hj by done. by eapply Hwp.
  - done.
Qed.

(** Removing a key that no node carries gives back the very same table. *)
Lemma hash_table_remove_absent ht d i :
  wf_table ht →
  (∀ r, r ∈ entries ht → key_match d i r = false) →
  hash_table_remove ht d i = Some ht.
Proof.
  intros Hwf Habs.
  destruct (hash_table_remove_spec ht d i Hwf) as (current & Hc & ->).
  rewrite chain_remove_none.
  - rewrite list_insert_id by done. by destruct ht.
  - intros r Hr. apply Habs, elem_of_entries. eauto.
Qed.

(** Removing a key that some node carries unlinks the first such node of
    the key's bucket, and nothing else. *)
Lemma hash_table_remove_present ht d i :
  wf_table ht → well_placed ht →
  (∃ r, r ∈ entries ht ∧ key_match d i r = true) →
  ∃ pre r post e1 e2,
    ht.(buckets) !! Z.to_nat (hash_function d i ht.(size))
      = Some (pre ++ r :: post)
    ∧ key_match d i r = true
    ∧ (∀ x, x ∈ pre → key_match d i x = false)
    ∧ hash_table_remove ht d i
      = Some {| buckets := <[Z.to_nat (hash_function d i ht.(size))
                             := pre ++ post]> ht.(buckets);
                size := ht.(size) |}
    ∧ entries ht = e1 ++ r :: e2
    ∧ (∀ ht', hash_table_remove ht d i = Some ht' → entries ht' = e1 ++ e2).
Proof.
  intros Hwf Hwp (r0 & Hr0 & Hm0).
  destruct (hash_table_remove_spec ht d i Hwf) as (current & Hc & Heq).
  apply elem_of_entries in Hr0 as (j & chain & Hj & Hr0).
  pose proof (Hwp j chain r0 Hj Hr0) as Hplace.
  rewrite (key_match_hash d i r0 _ Hm0) in Hplace. subst j.
  rewrite Hc in Hj. injection Hj as <-.
  destruct (chain_remove_first current d i) as
    (pre & r & post & -> & Hm & Hpre & Hrem); [eauto|].
  destruct (concat_bucket _ _ _ Hc) as [Hold Hnew].
  exists pre, r, post,
    (concat (take (Z.to_nat (hash_function d i (size ht))) (buckets ht))
       ++ pre),
    (post ++ concat
       (drop (S (Z.to_nat (hash_function d i (size ht)))) (buckets ht))).
  split_and!; try done.
  - by rewrite Heq, Hrem.
  - unfold entries. rewrite Hold. by rewrite <- !app_assoc.
  - intros ht'. rewrite Heq. intros [= <-]. unfold entries. simpl.
    rewrite Hnew, Hrem. by rewrite <- !app_assoc.
Qed.

(** ** Counting the nodes of a key *)

Lemma key_count_zero d i ht :
  key_count d i ht = O ↔ ∀ r, r ∈ entries ht → key_match d i r = false.
Proof.
  unfold key_count. rewrite length_zero_iff_nil. split.
  - intros Hnil r Hr. destruct (key_match d i r) eqn:E; [|done].
    assert (r ∈ filter (λ r, key_match d i r = true) (entries ht)) as Hin
      by (by apply list_elem_of_filter).
    rewrite Hnil in Hin. by apply elem_of_nil in Hin.
  - induction (entries ht) as [|x l IH]; intros H; [done|].
    rewrite filter_cons, decide_False.
    + apply IH. intros r Hr. apply H. by right.
    + rewrite (H x) by left. done.
Qed.

Lemma key_count_insert d i ht r ht' :
  wf_table ht → hash_table_insert true ht r = Some ht' →
  key_count d i ht'
  = ((if key_match d i r then 1 else 0) + key_count d i ht)%nat.
Proof.
  intros Hwf Hins.
  destruct (hash_table_insert_entries ht r ht' Hwf Hins) as (_ & _ & Hp).
  unfold key_count. rewrite Hp, filter_cons.
  destruct (key_match d i r).
  - by rewrite decide_True.
  - by rewrite decide_False.
Qed.

Lemma key_count_remove_same d i d' i' ht ht' :
  wf_table ht → well_placed ht →
  removes_key d i (OpRemove d' i') = true →
  hash_table_remove ht d' i' = Some ht' →
  key_count d i ht' = Nat.pred (key_count d i ht).
Proof.
  intros Hwf Hwp [Hd Hi]%andb_true_iff Hrem.
  apply Z.eqb_eq in Hd, Hi. apply strcmp_zero in Hd. subst i'.
  assert (∀ r, key_match d' i r = key_match d i r) as Hk
    by (intros r; by apply key_match_c_str).
  destruct (decide (key_count d i ht = O)) as [Hz|Hnz].
  - rewrite Hz. simpl.
    rewrite hash_table_remove_absent in Hrem; [congruence|done|].
    intros r Hr. rewrite Hk. by apply (key_count_zero d i ht).
  - assert (∃ r, r ∈ entries ht ∧ key_match d' i r = true) as Hex.
    { unfold key_count in Hnz.
      destruct (filter (λ r, key_match d i r = true) (entries ht))
        as [|r l] eqn:Ef; [done|].
      assert (r ∈ r :: l) as Hin by left. rewrite <- Ef in Hin.
      apply list_elem_of_filter in Hin as [Hm Hin]. exists r.
      by rewrite Hk. }
    destruct (hash_table_remove_present ht d' i Hwf Hwp Hex)
      as (pre & r & post & e1 & e2 & _ & Hm & _ & _ & He & He').
    unfold key_count. rewrite (He' ht' Hrem), He.
    rewrite !filter_app, filter_cons, !length_app.
    rewrite Hk in Hm. rewrite decide_True by done. simpl. lia.
Qed.

Lemma key_count_remove_other d i d' i' ht ht' :
  wf_table ht → well_placed ht →
  removes_key d i (OpRemove d' i') = false →
  hash_table_remove ht d' i' = Some ht' →
  key_count d i ht' = key_count d i ht.
Proof.
  intros Hwf Hwp Hother Hrem.
  destruct (decide (key_count d' i' ht = O)) as [Hz|Hnz].
  - rewrite hash_table_remove_absent in Hrem; [congruence|done|].
    by apply (key_count_zero d' i' ht).
  - assert (∃ r, r ∈ entries ht ∧ key_match d' i' r = true) as Hex.
    { unfold key_count in Hnz.
      destruct (filter (λ r, key_match d' i' r = true) (entries ht))
        as [|r l] eqn:Ef; [done|].
      assert (r ∈ r :: l) as Hin by left. rewrite <- Ef in Hin.
      apply list_elem_of_filter in Hin as [Hm Hin]. eauto. }
    destruct (hash_table_remove_present ht d' i' Hwf Hwp Hex)
      as (pre & r & post & e1 & e2 & _ & Hm & _ & _ & He & He').
    unfold key_count. rewrite (He' ht' Hrem), He.
    rewrite !filter_app, filter_cons.
    rewrite decide_False; [done|].
    intros Hm'. unfold key_match in Hm, Hm'.
    apply andb_true_iff in Hm as [H1 H2], Hm' as [H3 H4].
    apply Z.eqb_eq in H1, H2, H3, H4. apply strcmp_zero in H1, H3.
    simpl in Hother. apply andb_false_iff in Hother as [Hf|Hf].
    + apply Z.eqb_neq in Hf. apply Hf, strcmp_zero. congruence.
    + apply Z.eqb_neq in Hf. congruence.
Qed.

(** ** Sequences of operations *)

Lemma hash_table_init_spec n ht :
  0 < n → hash_table_init true true n = Some ht →
  wf_table ht ∧ well_placed ht ∧ entries ht = [] ∧ ht.(size) = n.
Proof.
  intros Hn [= <-]. split_and!.
  - split; simpl; [done|]. rewrite length_replicate. lia.
  - intros i chain r [-> _]%lookup_replicate Hr. by apply elem_of_nil in Hr.
  - unfold entries. simpl. by induction (Z.to_nat n).
  - done.
Qed.

Lemma pending_mono d i ops n m :
  (n ≤ m)%nat → (pending d i ops n ≤ pending d i ops m)%nat.
Proof.
  revert n m. induction ops as [|op ops IH]; intros n m Hnm; simpl; [done|].
  apply IH.
  destruct (inserts_key d i op); [lia|].
  destruct (removes_key d i op); lia.
Qed.

(** The operations never leave the bucket array, keep the table well
    formed, and keep no more nodes of a key than [pending] counts. *)
Lemma run_ops_invariant d i ops ht :
  wf_table ht → well_placed ht →
  ∃ ht', run_ops ops ht = Some ht'
         ∧ wf_table ht' ∧ well_placed ht' ∧ ht'.(size) = ht.(size)
         ∧ (key_count d i ht' ≤ pending d i ops (key_count d i ht))%nat.
Proof.
  revert ht. induction ops as [|op ops IH]; intros ht Hwf Hwp; simpl.
  - eauto 10.
  - destruct op as [[] r|d' i']; simpl.
    + destruct (hash_table_insert_spec ht r Hwf) as (next & _ & Heq).
      destruct (hash_table_insert true ht r) as [ht1|] eqn:Hins;
        [clear Heq|done]. simpl.
      destruct (hash_table_insert_entries ht r _ Hwf Hins) as (Hwf' & Hs & _).
      pose proof (hash_table_insert_well_placed ht r _ Hwf Hwp Hins) as Hwp'.
      pose proof (key_count_insert d i ht r _ Hwf Hins) as Hk.
      destruct (IH _ Hwf' Hwp') as (ht' & Hrun & ? & ? & Hs' & Hle).
      exists ht'. split_and!; try done; [congruence|].
      etrans; [apply Hle|]. apply pending_mono. rewrite Hk.
      destruct (key_match d i r); lia.
    + destruct (IH ht Hwf Hwp) as (ht' & Hrun & ? & ? & Hs' & Hle).
      exists ht'. split_and!; try done.
      etrans; [apply Hle|]. apply pending_mono.
      destruct (key_match d i r); lia.
    + destruct (hash_table_remove_spec ht d' i' Hwf) as (cur & _ & Heq).
      destruct (hash_table_remove ht d' i') as [ht1|] eqn:Hrem;
        [clear Heq|done]. simpl.
      destruct (hash_table_remove_invariant ht d' i' _ Hwf Hwp Hrem)
        as (Hwf' & Hwp' & Hs).
      destruct (IH _ Hwf' Hwp') as (ht' & Hrun & ? & ? & Hs' & Hle).
      exists ht'. split_and!; try done; [congruence|].
      etrans; [apply Hle|]. apply pending_mono.
      destruct ((strcmp d' d =? 0) && (i' =? i)) eqn:E.
      * rewrite (key_count_remove_same d i d' i' ht _ Hwf Hwp E Hrem). done.
      * rewrite (key_count_remove_other d i d' i' ht _ Hwf Hwp E Hrem). done.
Qed.

Lemma inserts_removes_exclusive d i op :
  inserts_key d i op = true → removes_key d i op = false.
Proof. by destruct op. Qed.

(** When no remove of the key comes before an insert it can take back,
    [pending] is the plain difference of the two counts. *)
Lemma pending_balanced d i ops n :
  (∀ k, (count_ops (removes_key d i) (take k ops)
         ≤ n + count_ops (inserts_key d i) (take k ops))%nat) →
  (pending d i ops n + count_ops (removes_key d i) ops
   = n + count_ops (inserts_key d i) ops)%nat.
Proof.
  revert n. induction ops as [|op ops IH]; intros n Hpre; simpl; [done|].
  destruct (inserts_key d i op) eqn:Ei.
  - rewrite (inserts_removes_exclusive _ _ _ Ei).
    assert (pending d i ops (S n) + count_ops (removes_key d i) ops
            = S n + count_ops (inserts_key d i) ops)%nat as Hrec; [|lia].
    apply IH. intros k. specialize (Hpre (S k)). simpl in Hpre.
    rewrite Ei, (inserts_removes_exclusive _ _ _ Ei) in Hpre. lia.
  - destruct (removes_key d i op) eqn:Er.
    + pose proof (Hpre 1%nat) as H1. simpl in H1. rewrite Ei, Er in H1.
      simpl in H1.
      assert (pending d i ops (Nat.pred n) + count_ops (removes_key d i) ops
              = Nat.pred n + count_ops (inserts_key d i) ops)%nat as Hrec;
        [|lia].
      apply IH. intros k. specialize (Hpre (S k)). simpl in Hpre.
      rewrite Ei, Er in Hpre. lia.
    + simpl. apply IH. intros k. specialize (Hpre (S k)). simpl in Hpre.
      rewrite Ei, Er in Hpre. lia.
Qed.

(** ** The sample tables are cache states *)

Lemma empty_table_init : hash_table_init true true HASH_SIZE = Some empty_table.
Proof. done. Qed.

Lemma table_of_invariant ops :
  run_ops ops empty_table = Some (table_of ops)
  ∧ wf_table (table_of ops) ∧ well_placed (table_of ops).
Proof.
  destruct (hash_table_init_spec HASH_SIZE empty_table) as (Hwf & Hwp & _);
    [done|done|].
  destruct (run_ops_invariant "" 0 ops empty_table Hwf Hwp)
    as (ht & Hrun & ? & ? & _).
  unfold table_of. by rewrite Hrun.
Qed.

(** * The claims *)

(** C1. A link-deleted event for interface [I] calls the report callback
    once for each route of the cache whose [ifindex] is [I] and for no other
    route: the lines it adds to the output are the "Link deleted" line and
    then one "Route invalidated" line per node of [owned_by I (entries ht)],
    the nodes of the table with that index, duplicates included, in scan
    order.  The same holds of the scan under any callback [cb]: the world it
    leaves is [cb] folded over exactly those nodes. *)
Theorem C1_link_removed_reports_each_owned_route_once
    (ht : HashTable) (I : Z) (out : list Line) :
  wf_table ht →
  on_link_removed I ht out
  = Some (NL_OK, ht,
          out ++ LinkDeleted I :: map invalidated (owned_by I (entries ht)))
  ∧ ∀ (W : Type) (cb : callback W) (w : W),
      ∃ ht', hash_table_find_by_ifindex ht I cb w
             = Some (ht', foldl (λ w r, (cb r w).2) w
                            (owned_by I (entries ht))).
Proof.
  intros Hwf. split.
  - by apply on_link_removed_spec.
  - intros W cb w. eexists. by apply find_by_ifindex_spec.
Qed.

Lemma C1_witness :
  on_link_removed 3 (table_of [OpInsert true route_a; OpInsert true route_b]) []
  = Some (NL_OK, table_of [OpInsert true route_a; OpInsert true route_b],
          [LinkDeleted 3;
           RouteInvalidated "10.0.0.0/24" 3 "192.168.1.1" 100]).
Proof.
  apply (C1_link_removed_reports_each_owned_route_once
           (table_of [OpInsert true route_a; OpInsert true route_b]) 3 []).
  split; vm_compute; reflexivity.
Defined.

(** C2. Neither a link-deleted nor an address-deleted event changes the
    cache: the table each handler returns is the table it was given, bucket
    for bucket, so a later scan walks the same nodes.  The same is true of
    every message the link and address callbacks can be handed. *)
Theorem C2_invalidation_leaves_cache_unchanged
    (ht : HashTable) (I : Z) (A : string) (out : list Line) :
  wf_table ht →
  (∃ out', on_link_removed I ht out = Some (NL_OK, ht, out'))
  ∧ (∃ out', on_address_removed I A ht out = Some (NL_OK, ht, out'))
  ∧ (∀ msg, ∃ act out', link_callback msg ht out = Some (act, ht, out'))
  ∧ (∀ msg, ∃ act out', addr_callback msg ht out = Some (act, ht, out')).
Proof.
  intros Hwf. split_and!.
  - eexists. by apply on_link_removed_spec.
  - unfold on_address_removed, addr_callback. simpl.
    rewrite find_by_ifindex_print by done. simpl. eauto.
  - intros [type [ifindex|]]; unfold link_callback; simpl;
      repeat case_bool_decide; simpl;
      rewrite ?find_by_ifindex_print by done; simpl; eauto.
  - intros [type [[ifindex attrs]|]]; unfold addr_callback; simpl;
      repeat case_bool_decide; simpl; eauto.
    destruct (first_address attrs); simpl;
      rewrite ?find_by_ifindex_print by done; simpl; eauto.
Qed.

Lemma C2_witness :
  (∃ out', on_link_removed 3 (table_of [OpInsert true route_a]) []
           = Some (NL_OK, table_of [OpInsert true route_a], out'))
  ∧ (∃ out', on_address_removed 3 "192.168.1.7"
               (table_of [OpInsert true route_a]) []
             = Some (NL_OK, table_of [OpInsert true route_a], out'))
  ∧ (∀ msg, ∃ act out',
       link_callback msg (table_of [OpInsert true route_a]) []
       = Some (act, table_of [OpInsert true route_a], out'))
  ∧ (∀ msg, ∃ act out',
       addr_callback msg (table_of [OpInsert true route_a]) []
       = Some (act, table_of [OpInsert true route_a], out')).
Proof.
  apply (C2_invalidation_leaves_cache_unchanged
           (table_of [OpInsert true route_a]) 3 "192.168.1.7" []).
  split; vm_compute; reflexivity.
Defined.

(** C3, as stated, fails: a remove that comes before the insert it is meant
    to take back finds nothing and is a no-op, so the insert survives.  On
    the empty table, remove of ("10.0.0.0/24", 3) followed by insert of a
    route with that key removes the key as often as it inserts it (once),
    and the scan for interface 3 still reports the destination. *)
Lemma C3_counterexample :
  count_ops (removes_key "10.0.0.0/24" 3)
    [OpRemove "10.0.0.0/24" 3; OpInsert true route_a]
  = count_ops (inserts_key "10.0.0.0/24" 3)
      [OpRemove "10.0.0.0/24" 3; OpInsert true route_a]
  ∧ run_ops [OpRemove "10.0.0.0/24" 3; OpInsert true route_a] empty_table
    = Some (table_of [OpInsert true route_a])
  ∧ hash_table_find_by_ifindex (table_of [OpInsert true route_a]) 3
      print_invalidated_route []
    = Some (table_of [OpInsert true route_a],
            [RouteInvalidated "10.0.0.0/24" 3 "192.168.1.1" 100])
  ∧ strcmp (destination route_a) "10.0.0.0/24" = 0.
Proof. vm_compute. done. Qed.

(** C3, amended.  Start from the empty table and run any sequence of
    inserts and removes in which the key [(d, i)] is removed as many times
    as it is inserted and, at every point of the sequence, has not been
    removed more often than inserted so far.  Then every operation stays
    inside the bucket array, and the scan for interface [i] reports no route
    whose destination compares equal to [d]. *)
Theorem C3_balanced_removes_leave_no_key
    (n : Z) (ops : list cache_op) (d : string) (i : Z) :
  0 < n →
  count_ops (removes_key d i) ops = count_ops (inserts_key d i) ops →
  (∀ k, (count_ops (removes_key d i) (take k ops)
         ≤ count_ops (inserts_key d i) (take k ops))%nat) →
  ∃ ht0 ht,
    hash_table_init true true n = Some ht0
    ∧ run_ops ops ht0 = Some ht
    ∧ hash_table_find_by_ifindex ht i print_invalidated_route []
      = Some (ht, map invalidated (owned_by i (entries ht)))
    ∧ ∀ r, r ∈ owned_by i (entries ht) → strcmp r.(destination) d ≠ 0.
Proof.
  intros Hn Hbal Hpre.
  destruct (hash_table_init true true n) as [ht0|] eqn:Hinit; [|done].
  destruct (hash_table_init_spec n ht0 Hn Hinit) as (Hwf & Hwp & He & _).
  destruct (run_ops_invariant d i ops ht0 Hwf Hwp)
    as (ht & Hrun & Hwf' & _ & _ & Hle).
  exists ht0, ht. split_and!; try done.
  - by rewrite find_by_ifindex_print.
  - assert (key_count d i ht0 = O) as H0
      by (unfold key_count; by rewrite He).
    rewrite H0 in Hle.
    pose proof (pending_balanced d i ops 0 Hpre) as Hp.
    assert (key_count d i ht = O) as Hz by lia.
    intros r [Hi Hr]%list_elem_of_filter Hs.
    pose proof (proj1 (key_count_zero d i ht) Hz r Hr) as Hk.
    unfold key_match in Hk. rewrite Hs, Hi, !Z.eqb_refl in Hk. done.
Qed.

Lemma C3_witness :
  ∃ ht0 ht,
    hash_table_init true true 128 = Some ht0
    ∧ run_ops [OpInsert true route_a; OpInsert true route_b;
               OpRemove "10.0.0.0/24" 3] ht0 = Some ht
    ∧ hash_table_find_by_ifindex ht 3 print_invalidated_route []
      = Some (ht, map invalidated (owned_by 3 (entries ht)))
    ∧ ∀ r, r ∈ owned_by 3 (entries ht)
           → strcmp r.(destination) "10.0.0.0/24" ≠ 0.
Proof.
  apply (C3_balanced_removes_leave_no_key 128
           [OpInsert true route_a; OpInsert true route_b; OpRemove "10.0.0.0/24" 3]
           "10.0.0.0/24" 3).
  - lia.
  - reflexivity.
  - intros [|[|[|[|k]]]]; vm_compute; lia.
Defined.

(** C4. Two inserts of routes with the same key, whatever their metrics,
    both succeed and leave two nodes: the second goes in front of the first
    at the head of the key's bucket, the rest of that chain and every other
    bucket stay as they were, and the scan for the routes' interface visits
    both new nodes besides the nodes it visited before. *)
Theorem C4_duplicate_keys_are_both_kept
    (ht : HashTable) (r1 r2 : RouteInfo) :
  wf_table ht →
  strcmp r2.(destination) r1.(destination) = 0 →
  r2.(ifindex) = r1.(ifindex) →
  ∃ next ht1 ht2,
    ht.(buckets) !! Z.to_nat (hash_function r1.(destination) r1.(ifindex)
                                ht.(size)) = Some next
    ∧ hash_table_insert true ht r1 = Some ht1
    ∧ hash_table_insert true ht1 r2 = Some ht2
    ∧ ht2.(buckets)
      = <[Z.to_nat (hash_function r1.(destination) r1.(ifindex) ht.(size))
          := r2 :: r1 :: next]> ht.(buckets)
    ∧ hash_table_find_by_ifindex ht2 r1.(ifindex) print_invalidated_route []
      = Some (ht2, map invalidated (owned_by r1.(ifindex) (entries ht2)))
    ∧ owned_by r1.(ifindex) (entries ht2)
      ≡ₚ r2 :: r1 :: owned_by r1.(ifindex) (entries ht).
Proof.
  intros Hwf Hd Hi.
  destruct (hash_table_insert_spec ht r1 Hwf) as (next & Hn & Heq1).
  destruct (hash_table_insert true ht r1) as [ht1|] eqn:Hins1; [|done].
  destruct (hash_table_insert_entries ht r1 ht1 Hwf Hins1)
    as (Hwf1 & Hs1 & Hp1).
  destruct (hash_table_insert_spec ht1 r2 Hwf1) as (next2 & Hn2 & Heq2).
  destruct (hash_table_insert true ht1 r2) as [ht2|] eqn:Hins2; [|done].
  destruct (hash_table_insert_entries ht1 r2 ht2 Hwf1 Hins2)
    as (Hwf2 & Hs2 & Hp2).
  assert (hash_function (destination r2) (ifindex r2) (size ht1)
          = hash_function (destination r1) (ifindex r1) (size ht)) as Hh.
  { rewrite Hs1. apply key_match_hash. unfold key_match.
    by rewrite Hd, Hi, !Z.eqb_refl. }
  exists next, ht1, ht2. split_and!; try done.
  - injection Heq1 as ->. injection Heq2 as ->. simpl in *.
    rewrite Hh in *.
    rewrite list_lookup_insert_eq in Hn2 by (by eapply lookup_lt_Some).
    injection Hn2 as <-. by rewrite list_insert_insert_eq.
  - by rewrite find_by_ifindex_print.
  - unfold owned_by. rewrite Hp2, Hp1, !filter_cons.
    by rewrite !decide_True.
Qed.

Lemma C4_witness :
  ∃ next ht1 ht2,
    empty_table.(buckets)
      !! Z.to_nat (hash_function route_a.(destination) route_a.(ifindex)
                     empty_table.(size)) = Some next
    ∧ hash_table_insert true empty_table route_a = Some ht1
    ∧ hash_table_insert true ht1 route_a2 = Some ht2
    ∧ ht2.(buckets)
      = <[Z.to_nat (hash_function route_a.(destination) route_a.(ifindex)
                      empty_table.(size))
          := route_a2 :: route_a :: next]> empty_table.(buckets)
    ∧ hash_table_find_by_ifindex ht2 route_a.(ifindex)
        print_invalidated_route []
      = Some (ht2, map invalidated (owned_by route_a.(ifindex) (entries ht2)))
    ∧ owned_by route_a.(ifindex) (entries ht2)
      ≡ₚ route_a2 :: route_a
           :: owned_by route_a.(ifindex) (entries empty_table).
Proof.
  apply (C4_duplicate_keys_are_both_kept empty_table route_a route_a2).
  - split; vm_compute; reflexivity.
  - reflexivity.
  - reflexivity.
Defined.

(** Two route-added messages for one key and two metrics leave two nodes;
    a route-deleted message for the key then takes the newer one. *)
Example two_route_added_events_then_one_deleted :
  route_callback (msg_route_a RTM_NEWROUTE 100) true empty_table []
  = Some (NL_OK, table_of [OpInsert true route_a],
          [RouteAdded "10.0.0.0/24" 3 "192.168.1.1" 100])
  ∧ route_callback (msg_route_a RTM_NEWROUTE 200) true
      (table_of [OpInsert true route_a]) []
    = Some (NL_OK, table_of [OpInsert true route_a; OpInsert true route_a2],
            [RouteAdded "10.0.0.0/24" 3 "192.168.1.1" 200])
  ∧ entries (table_of [OpInsert true route_a; OpInsert true route_a2])
    = [route_a2; route_a]
  ∧ route_callback (msg_route_a RTM_DELROUTE 100) true
      (table_of [OpInsert true route_a; OpInsert true route_a2]) []
    = Some (NL_OK, table_of [OpInsert true route_a],
            [RouteDeleted "10.0.0.0/24" 3 "192.168.1.1" 100]).
Proof. vm_compute. done. Qed.

(** C5. Removing a key that no node of the table carries (no node whose
    destination compares equal under [strcmp] and whose [ifindex] is equal)
    returns, without leaving the bucket array, the table it was given:
    every chain of every bucket is what it was. *)
Theorem C5_remove_of_absent_key_is_a_noop
    (ht : HashTable) (d : string) (i : Z) :
  wf_table ht →
  (∀ r, r ∈ entries ht →
        ¬ (strcmp r.(destination) d = 0 ∧ r.(ifindex) = i)) →
  hash_table_remove ht d i = Some ht.
Proof.
  intros Hwf Habs. apply hash_table_remove_absent; [done|].
  intros r Hr. specialize (Habs r Hr). unfold key_match.
  destruct (Z.eqb_spec (strcmp (destination r) d) 0),
           (Z.eqb_spec (ifindex r) i); try done.
  by destruct Habs.
Qed.

Lemma C5_witness :
  hash_table_remove (table_of [OpInsert true route_a; OpInsert true route_b])
    "10.0.0.0/24" 4
  = Some (table_of [OpInsert true route_a; OpInsert true route_b]).
Proof.
  apply (C5_remove_of_absent_key_is_a_noop
           (table_of [OpInsert true route_a; OpInsert true route_b])
           "10.0.0.0/24" 4).
  - split; vm_compute; reflexivity.
  - intros r Hr [Hd Hi].
    apply list_elem_of_In in Hr. vm_compute in Hr.
    destruct Hr as [<-|[<-|[]]]; vm_compute in Hd, Hi; discriminate.
Defined.

(** C6. In a cache state that holds the key [(d, i)], one call of remove
    unlinks exactly one node: the bucket of the key reads
    [pre ++ r :: post] where [r] is its first node matching the key (no node
    of [pre] matches), and afterwards it reads [pre ++ post]; no other
    bucket changes.  The routes of the table lose that one occurrence of [r]
    and nothing else, so further nodes of the same key stay, and a scan
    after the remove reports all that is left. *)
Theorem C6_remove_unlinks_the_first_matching_node
    (ht : HashTable) (d : string) (i : Z) :
  wf_table ht → well_placed ht →
  (∃ r, r ∈ entries ht ∧ strcmp r.(destination) d = 0 ∧ r.(ifindex) = i) →
  ∃ pre r post e1 e2 ht',
    ht.(buckets) !! Z.to_nat (hash_function d i ht.(size))
      = Some (pre ++ r :: post)
    ∧ (strcmp r.(destination) d = 0 ∧ r.(ifindex) = i)
    ∧ (∀ x, x ∈ pre → ¬ (strcmp x.(destination) d = 0 ∧ x.(ifindex) = i))
    ∧ hash_table_remove ht d i = Some ht'
    ∧ ht'.(buckets)
      = <[Z.to_nat (hash_function d i ht.(size)) := pre ++ post]> ht.(buckets)
    ∧ ht'.(size) = ht.(size)
    ∧ entries ht = e1 ++ r :: e2
    ∧ entries ht' = e1 ++ e2
    ∧ ∀ J out,
        hash_table_find_by_ifindex ht' J print_invalidated_route out
        = Some (ht', out ++ map invalidated (owned_by J (e1 ++ e2))).
Proof.
  intros Hwf Hwp (r0 & Hr0 & Hd0 & Hi0).
  assert (∀ x, key_match d i x = true
               ↔ strcmp x.(destination) d = 0 ∧ x.(ifindex) = i) as Hkm.
  { intros x. unfold key_match.
    by rewrite andb_true_iff, !Z.eqb_eq. }
  destruct (hash_table_remove_present ht d i Hwf Hwp)
    as (pre & r & post & e1 & e2 & Hb & Hm & Hpre & Hrem & He & He').
  { exists r0. split; [done|]. by apply Hkm. }
  destruct (hash_table_remove_invariant ht d i _ Hwf Hwp Hrem)
    as (Hwf' & _ & _).
  apply Hkm in Hm as [Hd Hi].
  eexists pre, r, post, e1, e2, _. split_and!; try done.
  - intros x Hx Hx'. apply Hkm in Hx'. rewrite (Hpre x Hx) in Hx'. done.
  - by apply He'.
  - intros J out. rewrite find_by_ifindex_print by done.
    by rewrite (He' _ Hrem).
Qed.

Lemma C6_witness :
  ∃ pre r post e1 e2 ht',
    (table_of [OpInsert true route_a; OpInsert true route_a2;
               OpInsert true route_b]).(buckets)
      !! Z.to_nat (hash_function "10.0.0.0/24" 3 128)
      = Some (pre ++ r :: post)
    ∧ (strcmp r.(destination) "10.0.0.0/24" = 0 ∧ r.(ifindex) = 3)
    ∧ (∀ x, x ∈ pre →
            ¬ (strcmp x.(destination) "10.0.0.0/24" = 0 ∧ x.(ifindex) = 3))
    ∧ hash_table_remove
        (table_of [OpInsert true route_a; OpInsert true route_a2;
                   OpInsert true route_b]) "10.0.0.0/24" 3 = Some ht'
    ∧ ht'.(buckets)
      = <[Z.to_nat (hash_function "10.0.0.0/24" 3 128) := pre ++ post]>
          (table_of [OpInsert true route_a; OpInsert true route_a2;
                     OpInsert true route_b]).(buckets)
    ∧ ht'.(size) = 128
    ∧ entries (table_of [OpInsert true route_a; OpInsert true route_a2;
                         OpInsert true route_b]) = e1 ++ r :: e2
    ∧ entries ht' = e1 ++ e2
    ∧ ∀ J out,
        hash_table_find_by_ifindex ht' J print_invalidated_route out
        = Some (ht', out ++ map invalidated (owned_by J (e1 ++ e2))).
Proof.
  apply (C6_remove_unlinks_the_first_matching_node
           (table_of [OpInsert true route_a; OpInsert true route_a2;
                      OpInsert true route_b]) "10.0.0.0/24" 3).
  - apply table_of_invariant.
  - apply table_of_invariant.
  - exists route_a. split_and!; [|reflexivity|reflexivity].
    apply list_elem_of_In. vm_compute. auto.
Defined.

(** The node that goes is the one inserted last: of two nodes of one key
    the remove takes the head of the chain and keeps the older one. *)
Example remove_takes_the_newest_duplicate :
  hash_table_remove
    (table_of [OpInsert true route_a; OpInsert true route_a2; OpInsert true route_b])
    "10.0.0.0/24" 3
  = Some (table_of [OpInsert true route_a; OpInsert true route_b]).
Proof. vm_compute. reflexivity. Qed.

(** C7, as stated, fails: the scan compares [ifindex] fields and knows no
    sentinel.  A route message without nexthop makes [route_callback] store
    its route under [-1]; a link-deleted event whose index is [-1], or an
    address-deleted event whose index field reads as [-1], then reports
    that route. *)
Lemma C7_counterexample :
  route_callback msg_no_nexthop true empty_table []
  = Some (NL_OK, table_of [OpInsert true route_unknown],
          [RouteAdded "10.0.2.0/24" (-1) "none" 0])
  ∧ on_link_removed (-1) (table_of [OpInsert true route_unknown]) []
    = Some (NL_OK, table_of [OpInsert true route_unknown],
            [LinkDeleted (-1); RouteInvalidated "10.0.2.0/24" (-1) "none" 0])
  ∧ on_address_removed (-1) "192.168.1.7"
      (table_of [OpInsert true route_unknown]) []
    = Some (NL_OK, table_of [OpInsert true route_unknown],
            [AddressDeleted "192.168.1.7" (-1);
             RouteInvalidated "10.0.2.0/24" (-1) "none" 0]).
Proof. vm_compute. done. Qed.

(** C7, amended.  A route whose [ifindex] is [-1] is reported by no
    link-deleted or address-deleted event whose interface index differs
    from [-1]: none of the "Route invalidated" lines such an event adds is
    the line of a route stored under [-1]. *)
Theorem C7_unknown_owner_not_reported_for_other_indexes
    (ht : HashTable) (I : Z) (A : string) (out : list Line) :
  wf_table ht → int_range I → I ≠ -1 →
  ∃ recs,
    on_link_removed I ht out = Some (NL_OK, ht, out ++ LinkDeleted I :: recs)
    ∧ on_address_removed I A ht out
      = Some (NL_OK, ht,
              out ++ AddressDeleted (buf_store INET6_ADDRSTRLEN A) I :: recs)
    ∧ (∀ r, r.(ifindex) = -1 → invalidated r ∉ recs)
    ∧ (∀ d g m, RouteInvalidated d (-1) g m ∉ recs).
Proof.
  intros Hwf HI Hne.
  exists (map invalidated (owned_by I (entries ht))).
  assert (∀ d g m, RouteInvalidated d (-1) g m
                   ∉ map invalidated (owned_by I (entries ht))) as Hno.
  { intros d g m (r & Heq & [Hi _]%list_elem_of_filter)%list_elem_of_fmap.
    unfold invalidated in Heq. congruence. }
  split_and!.
  - by apply on_link_removed_spec.
  - by apply on_address_removed_spec.
  - intros r Hr. unfold invalidated. rewrite Hr. apply Hno.
  - done.
Qed.

Lemma C7_witness :
  ∃ recs,
    on_link_removed 3
      (table_of [OpInsert true route_a; OpInsert true route_unknown]) []
    = Some (NL_OK,
            table_of [OpInsert true route_a; OpInsert true route_unknown],
            [] ++ LinkDeleted 3 :: recs)
    ∧ on_address_removed 3 "192.168.1.7"
        (table_of [OpInsert true route_a; OpInsert true route_unknown]) []
      = Some (NL_OK,
              table_of [OpInsert true route_a; OpInsert true route_unknown],
              [] ++ AddressDeleted
                      (buf_store INET6_ADDRSTRLEN "192.168.1.7") 3 :: recs)
    ∧ (∀ r, r.(ifindex) = -1 → invalidated r ∉ recs)
    ∧ (∀ d g m, RouteInvalidated d (-1) g m ∉ recs).
Proof.
  apply (C7_unknown_owner_not_reported_for_other_indexes
           (table_of [OpInsert true route_a; OpInsert true route_unknown])
           3 "192.168.1.7" []).
  - split; vm_compute; reflexivity.
  - unfold int_range. lia.
  - lia.
Defined.

(** The attribute walk passes over the attributes of other types. *)
Lemma first_address_skips pre rest :
  (∀ x, x ∈ pre → x.(rta_type) ≠ IFA_LOCAL ∧ x.(rta_type) ≠ IFA_ADDRESS) →
  first_address (pre ++ rest) = first_address rest.
Proof.
  induction pre as [|x pre IH]; intros Hpre; simpl; [done|].
  destruct (Hpre x) as [H1 H2]; [left|].
  apply Z.eqb_neq in H1, H2. rewrite H1, H2. simpl.
  apply IH. intros y Hy. apply Hpre. by right.
Qed.

(** C8, as stated, fails in its last part: the removed address is not
    reported with each dependent route.  [addr_callback] prints it once,
    in the "Address deleted" line, before it scans; the records of the
    routes come from [print_invalidated_route], which is handed the route
    alone.  With two routes on interface 3 the address appears once for
    both, the two records are the same whichever address is removed, and
    they are the records of a deleted link. *)
Lemma C8_counterexample :
  on_address_removed 3 "192.168.1.7"
    (table_of [OpInsert true route_a; OpInsert true route_b;
               OpInsert true route_c]) []
  = Some (NL_OK,
          table_of [OpInsert true route_a; OpInsert true route_b;
                    OpInsert true route_c],
          [AddressDeleted "192.168.1.7" 3;
           RouteInvalidated "172.16.0.0/16" 3 "none" 10;
           RouteInvalidated "10.0.0.0/24" 3 "192.168.1.1" 100])
  ∧ on_address_removed 3 "10.9.9.9"
      (table_of [OpInsert true route_a; OpInsert true route_b;
                 OpInsert true route_c]) []
    = Some (NL_OK,
            table_of [OpInsert true route_a; OpInsert true route_b;
                      OpInsert true route_c],
            [AddressDeleted "10.9.9.9" 3;
             RouteInvalidated "172.16.0.0/16" 3 "none" 10;
             RouteInvalidated "10.0.0.0/24" 3 "192.168.1.1" 100])
  ∧ on_link_removed 3
      (table_of [OpInsert true route_a; OpInsert true route_b;
                 OpInsert true route_c]) []
    = Some (NL_OK,
            table_of [OpInsert true route_a; OpInsert true route_b;
                      OpInsert true route_c],
            [LinkDeleted 3;
             RouteInvalidated "172.16.0.0/16" 3 "none" 10;
             RouteInvalidated "10.0.0.0/24" 3 "192.168.1.1" 100])
  ∧ render (RouteInvalidated "172.16.0.0/16" 3 "none" 10)
    = ("Route invalidated: destination: 172.16.0.0/16 oif: 3 "
       +:+ "gateway: none metric: 10" +:+ newline)%string.
Proof. vm_compute. done. Qed.

(** C8, amended.  An address-deleted message selects the routes to report
    by its interface index alone: every node of the cache stored under that
    index gets a "Route invalidated" record, whatever its gateway and
    destination, and no other node does.  The removed address, the one of
    the first [IFA_LOCAL] or [IFA_ADDRESS] attribute of the message, is
    reported once, in the "Address deleted" line that comes before the
    records; the records carry the four fields of their routes and not the
    address, and are the records of a deleted link of that index. *)
Theorem C8_address_removed_selects_by_interface_and_names_address_once
    (pre post : list rtattr) (a : rtattr) (A : string) (index : Z)
    (ht : HashTable) (out : list Line) :
  wf_table ht →
  (∀ x, x ∈ pre → x.(rta_type) ≠ IFA_LOCAL ∧ x.(rta_type) ≠ IFA_ADDRESS) →
  a.(rta_type) = IFA_LOCAL ∨ a.(rta_type) = IFA_ADDRESS →
  a.(rta_addr) = Some A →
  let I := to_int index in
  let recs := map invalidated (owned_by I (entries ht)) in
  addr_callback {| addr_nlmsg_type := RTM_DELADDR;
                   addr_data := Some {| ifa_index := index;
                                        ifa_attrs := pre ++ a :: post |} |}
    ht out
  = Some (NL_OK, ht,
          out ++ AddressDeleted (buf_store INET6_ADDRSTRLEN A) I :: recs)
  ∧ (∀ r, r ∈ entries ht → r.(ifindex) = I → invalidated r ∈ recs)
  ∧ (∀ l, l ∈ recs →
       ∃ r, r ∈ entries ht ∧ r.(ifindex) = I
            ∧ l = RouteInvalidated r.(destination) r.(ifindex) r.(gateway)
                    r.(metric))
  ∧ on_link_removed I ht out = Some (NL_OK, ht, out ++ LinkDeleted I :: recs).
Proof.
  intros Hwf Hpre Ha HA I recs. split_and!.
  - unfold addr_callback. simpl. rewrite first_address_skips by done. simpl.
    assert ((rta_type a =? IFA_LOCAL) || (rta_type a =? IFA_ADDRESS) = true)
      as -> by (destruct Ha as [-> | ->]; done).
    rewrite HA. simpl. rewrite find_by_ifindex_print by done. simpl.
    by rewrite <- app_assoc.
  - intros r Hr Hi. apply list_elem_of_fmap. exists r. split; [done|].
    by apply list_elem_of_filter.
  - intros l (r & -> & [Hi Hr]%list_elem_of_filter)%list_elem_of_fmap.
    by exists r.
  - by apply on_link_removed_spec.
Qed.

Lemma C8_witness :
  addr_callback
    {| addr_nlmsg_type := RTM_DELADDR;
       addr_data :=
         Some {| ifa_index := 3;
                 ifa_attrs :=
                   [{| rta_type := 8; rta_addr := None |}]
                     ++ {| rta_type := IFA_LOCAL;
                           rta_addr := Some "192.168.1.7"%string |}
                     :: [{| rta_type := IFA_ADDRESS;
                            rta_addr := Some "10.9.9.9"%string |}] |} |}
    (table_of [OpInsert true route_a; OpInsert true route_b;
               OpInsert true route_c]) []
  = Some (NL_OK,
          table_of [OpInsert true route_a; OpInsert true route_b;
                    OpInsert true route_c],
          [AddressDeleted "192.168.1.7" 3;
           RouteInvalidated "172.16.0.0/16" 3 "none" 10;
           RouteInvalidated "10.0.0.0/24" 3 "192.168.1.1" 100]).
Proof.
  apply (C8_address_removed_selects_by_interface_and_names_address_once
           [{| rta_type := 8; rta_addr := None |}]
           [{| rta_type := IFA_ADDRESS; rta_addr := Some "10.9.9.9"%string |}]
           {| rta_type := IFA_LOCAL; rta_addr := Some "192.168.1.7"%string |}
           "192.168.1.7" 3
           (table_of [OpInsert true route_a; OpInsert true route_b;
                      OpInsert true route_c]) []).
  - split; vm_compute; reflexivity.
  - intros x ->%list_elem_of_singleton. split; discriminate.
  - left. reflexivity.
  - reflexivity.
Defined.

(** C9, as stated, fails: the record of an invalidated route is the line of
    [print_invalidated_route], which both handlers pass to the scan, and it
    says nothing of the trigger.  For the same cached route a link-deleted
    and an address-deleted event emit the very same record, character for
    character; only the line each handler prints before its records
    differs. *)
Lemma C9_counterexample :
  on_link_removed 3 (table_of [OpInsert true route_a]) []
  = Some (NL_OK, table_of [OpInsert true route_a],
          [LinkDeleted 3;
           RouteInvalidated "10.0.0.0/24" 3 "192.168.1.1" 100])
  ∧ on_address_removed 3 "192.168.1.7" (table_of [OpInsert true route_a]) []
    = Some (NL_OK, table_of [OpInsert true route_a],
            [AddressDeleted "192.168.1.7" 3;
             RouteInvalidated "10.0.0.0/24" 3 "192.168.1.1" 100])
  ∧ render (RouteInvalidated "10.0.0.0/24" 3 "192.168.1.1" 100)
    = ("Route invalidated: destination: 10.0.0.0/24 oif: 3 "
       +:+ "gateway: 192.168.1.1 metric: 100" +:+ newline)%string.
Proof. vm_compute. done. Qed.

(** C9, amended.  Every record of an invalidated route carries the
    destination, the interface index, the gateway and the metric of that
    route, and nothing else.  The trigger is told by the line the handler
    prints once before the records of an event, "Link deleted" with the
    index or "Address deleted" with the address and the index; the records
    that follow are the same for both triggers. *)
Theorem C9_records_carry_route_fields_and_heading_tells_trigger
    (ht : HashTable) (I : Z) (A : string) (out : list Line) :
  wf_table ht → int_range I →
  let recs :=
    map (λ r, RouteInvalidated r.(destination) r.(ifindex) r.(gateway)
                r.(metric))
        (owned_by I (entries ht)) in
  on_link_removed I ht out = Some (NL_OK, ht, out ++ LinkDeleted I :: recs)
  ∧ on_address_removed I A ht out
    = Some (NL_OK, ht,
            out ++ AddressDeleted (buf_store INET6_ADDRSTRLEN A) I :: recs)
  ∧ ∀ r, render (invalidated r)
         = ("Route invalidated: destination: " +:+ c_str r.(destination)
            +:+ " oif: " +:+ fmt_d r.(ifindex)
            +:+ " gateway: " +:+ c_str r.(gateway)
            +:+ " metric: " +:+ fmt_d r.(metric) +:+ newline)%string.
Proof.
  intros Hwf HI recs. split_and!.
  - by apply on_link_removed_spec.
  - by apply on_address_removed_spec.
  - done.
Qed.

Lemma C9_witness :
  on_link_removed 3 (table_of [OpInsert true route_a; OpInsert true route_b])
    []
  = Some (NL_OK, table_of [OpInsert true route_a; OpInsert true route_b],
          [LinkDeleted 3;
           RouteInvalidated "10.0.0.0/24" 3 "192.168.1.1" 100]).
Proof.
  apply (C9_records_carry_route_fields_and_heading_tells_trigger
           (table_of [OpInsert true route_a; OpInsert true route_b])
           3 "192.168.1.7" []).
  - split; vm_compute; reflexivity.
  - unfold int_range. lia.
Defined.

Lemma hash_function_poly31 d i n :
  0 < n → hash_function d i n = to_uint (poly31 d 0 + i) `mod` n.
Proof.
  intros Hn. unfold hash_function.
  pose proof (hash_loop_poly31 d 0) as Hp.
  rewrite (to_uint_small 0) in Hp by lia. rewrite Hp.
  assert (to_uint (to_uint (poly31 d 0) + i) = to_uint (poly31 d 0 + i))
    as -> by (unfold to_uint; by rewrite Zplus_mod_idemp_l).
  pose proof (to_uint_range (poly31 d 0 + i)).
  pose proof (Z.mod_pos_bound (to_uint (poly31 d 0 + i)) n Hn).
  assert (to_uint (poly31 d 0 + i) `mod` n ≤ to_uint (poly31 d 0 + i))
    by (apply Z.mod_le; lia).
  apply to_uint_small. lia.
Qed.

(** C10. For every string, every interface index, negative ones included,
    and every positive bucket count [n], [hash_function] returns a value
    from [0] to [n - 1]: the polynomial hash of the string plus the index,
    reduced modulo [2^32] as unsigned arithmetic wraps it, and then modulo
    [n].  Hence on a table with [size] buckets the index that insert and
    remove compute lies inside the bucket array, and insert, remove and the
    scan, whose loop runs from [0] to [size - 1], never read or write a
    bucket outside it. *)
Theorem C10_hash_below_bucket_count_and_accesses_in_bounds
    (d : string) (i n : Z) (ht : HashTable) (node_ok : bool)
    (route : RouteInfo) :
  0 < n → wf_table ht →
  0 ≤ hash_function d i n < n
  ∧ hash_function d i n = ((poly31 d 0 + i) `mod` 2 ^ 32) `mod` n
  ∧ (Z.to_nat (hash_function d i ht.(size)) < length ht.(buckets))%nat
  ∧ is_Some (hash_table_insert node_ok ht route)
  ∧ is_Some (hash_table_remove ht d i)
  ∧ ∀ (W : Type) (cb : callback W) (w : W),
      is_Some (hash_table_find_by_ifindex ht i cb w).
Proof.
  intros Hn Hwf. split_and!.
  - by apply hash_function_bound.
  - by apply hash_function_bound.
  - by apply hash_function_poly31.
  - apply lookup_lt_is_Some. by apply bucket_in_range.
  - destruct node_ok; [|by eexists].
    destruct (hash_table_insert_spec ht route Hwf) as (? & _ & ->). by eexists.
  - destruct (hash_table_remove_spec ht d i Hwf) as (? & _ & ->). by eexists.
  - intros W cb w. rewrite find_by_ifindex_spec by done. by eexists.
Qed.

Lemma C10_witness :
  0 ≤ hash_function "10.0.2.0/24" (-1) 128 < 128
  ∧ hash_function "10.0.2.0/24" (-1) 128
    = ((poly31 "10.0.2.0/24" 0 + -1) `mod` 2 ^ 32) `mod` 128
  ∧ (Z.to_nat (hash_function "10.0.2.0/24" (-1)
                 (table_of [OpInsert true route_a]).(size))
     < length (table_of [OpInsert true route_a]).(buckets))%nat
  ∧ is_Some (hash_table_insert true (table_of [OpInsert true route_a])
               route_unknown)
  ∧ is_Some (hash_table_remove (table_of [OpInsert true route_a])
               "10.0.2.0/24" (-1))
  ∧ ∀ (W : Type) (cb : callback W) (w : W),
      is_Some (hash_table_find_by_ifindex (table_of [OpInsert true route_a])
                 (-1) cb w).
Proof.
  apply (C10_hash_below_bucket_count_and_accesses_in_bounds
           "10.0.2.0/24" (-1) 128 (table_of [OpInsert true route_a])
           true route_unknown).
  - lia.
  - split; vm_compute; reflexivity.
Defined.

(** The hash of a key under the [-1] index: the addition wraps around. *)
Example hash_function_of_unknown_owner :
  hash_function "10.0.2.0/24" (-1) 128 = 41
  ∧ hash_function "" (-1) 128 = 127
  ∧ hash_function "" (-1) 100 = 95.
Proof. vm_compute. done. Qed.

(** * Further properties of the hash table *)

Lemma strcmp_refl s : strcmp s s = 0.
Proof. by apply strcmp_zero. Qed.

Lemma key_match_self r : key_match r.(destination) r.(ifindex) r = true.
Proof. unfold key_match. by rewrite strcmp_refl, !Z.eqb_refl. Qed.

Lemma buckets_visit_empty {W} I (cb : callback W) n w :
  buckets_visit I cb (replicate n []) w = (replicate n [], w).
Proof. induction n as [|n IH]; simpl; [done|]. by rewrite IH. Qed.

(** X1. [hash_table_init] gives a table only when both allocations
    succeed; the table then has the [n] buckets asked for, all of them
    empty, and a scan of it for any interface returns without a single call
    of the callback, whatever the callback. *)
Theorem hash_table_init_gives_an_empty_table
    (malloc_ok calloc_ok : bool) (n : Z) (ht : HashTable) :
  0 < n →
  hash_table_init malloc_ok calloc_ok n = Some ht →
  malloc_ok = true ∧ calloc_ok = true
  ∧ ht.(size) = n ∧ length ht.(buckets) = Z.to_nat n
  ∧ entries ht = []
  ∧ ∀ (W : Type) (cb : callback W) (I : Z) (w : W),
      hash_table_find_by_ifindex ht I cb w = Some (ht, w).
Proof.
  intros Hn Hinit. destruct malloc_ok, calloc_ok; try done.
  destruct (hash_table_init_spec n ht Hn Hinit) as (Hwf & _ & He & Hs).
  injection Hinit as <-. split_and!; try done.
  - simpl. by rewrite length_replicate.
  - intros W cb I w. rewrite find_by_ifindex_spec by done.
    rewrite He. simpl. by rewrite buckets_visit_empty.
Qed.

Lemma hash_table_init_gives_an_empty_table_witness :
  ∃ ht, hash_table_init true true 128 = Some ht
        ∧ ht.(size) = 128 ∧ length ht.(buckets) = 128%nat
        ∧ entries ht = []
        ∧ ∀ (W : Type) (cb : callback W) (I : Z) (w : W),
            hash_table_find_by_ifindex ht I cb w = Some (ht, w).
Proof.
  exists empty_table. split; [reflexivity|].
  apply (hash_table_init_gives_an_empty_table true true 128 empty_table).
  - lia.
  - reflexivity.
Defined.

(** The routes of the table around a freshly inserted node. *)
Lemma hash_table_insert_splits ht r ht' :
  wf_table ht → hash_table_insert true ht r = Some ht' →
  ∃ e1 e2, entries ht = e1 ++ e2 ∧ entries ht' = e1 ++ r :: e2.
Proof.
  intros Hwf Hins.
  destruct (hash_table_insert_spec ht r Hwf) as (next & Hn & Heq).
  rewrite Heq in Hins. injection Hins as <-.
  destruct (concat_bucket _ _ _ Hn) as [Hold Hnew].
  eexists _, _. unfold entries. simpl. rewrite Hold, Hnew. simpl. done.
Qed.

(** X2. After a successful insert the scan for the route's interface
    reports the new route once more than before, the routes it reported
    before keep their order around it, and the scan for any other
    interface reports what it reported before. *)
Theorem insert_is_seen_by_the_scan_of_its_interface_only
    (ht ht' : HashTable) (r : RouteInfo) (out : list Line) :
  wf_table ht →
  hash_table_insert true ht r = Some ht' →
  (∃ l1 l2,
     owned_by r.(ifindex) (entries ht) = l1 ++ l2
     ∧ hash_table_find_by_ifindex ht' r.(ifindex) print_invalidated_route out
       = Some (ht', out ++ map invalidated (l1 ++ r :: l2)))
  ∧ ∀ J, J ≠ r.(ifindex) →
      hash_table_find_by_ifindex ht' J print_invalidated_route out
      = Some (ht', out ++ map invalidated (owned_by J (entries ht))).
Proof.
  intros Hwf Hins.
  destruct (hash_table_insert_entries ht r ht' Hwf Hins) as (Hwf' & _ & _).
  destruct (hash_table_insert_splits ht r ht' Hwf Hins)
    as (e1 & e2 & He & He').
  split.
  - exists (owned_by r.(ifindex) e1), (owned_by r.(ifindex) e2). split.
    + unfold owned_by. by rewrite He, filter_app.
    + rewrite find_by_ifindex_print by done. rewrite He'. unfold owned_by.
      by rewrite filter_app, filter_cons, decide_True.
  - intros J HJ. rewrite find_by_ifindex_print by done.
    rewrite He, He'. unfold owned_by.
    by rewrite !filter_app, filter_cons, decide_False.
Qed.

Lemma insert_is_seen_by_the_scan_of_its_interface_only_witness :
  (∃ l1 l2,
     owned_by 3 (entries (table_of [OpInsert true route_c])) = l1 ++ l2
     ∧ hash_table_find_by_ifindex
         (table_of [OpInsert true route_c; OpInsert true route_a]) 3
         print_invalidated_route []
       = Some (table_of [OpInsert true route_c; OpInsert true route_a],
               [] ++ map invalidated (l1 ++ route_a :: l2)))
  ∧ ∀ J, J ≠ 3 →
      hash_table_find_by_ifindex
        (table_of [OpInsert true route_c; OpInsert true route_a]) J
        print_invalidated_route []
      = Some (table_of [OpInsert true route_c; OpInsert true route_a],
              [] ++ map invalidated
                      (owned_by J (entries (table_of [OpInsert true route_c])))).
Proof.
  apply (insert_is_seen_by_the_scan_of_its_interface_only
           (table_of [OpInsert true route_c])
           (table_of [OpInsert true route_c; OpInsert true route_a])
           route_a []).
  - split; vm_compute; reflexivity.
  - vm_compute. reflexivity.
Defined.

Lemma hash_table_remove_after_insert ht ht' r :
  wf_table ht →
  hash_table_insert true ht r = Some ht' →
  hash_table_remove ht' r.(destination) r.(ifindex) = Some ht.
Proof.
  intros Hwf Hins.
  destruct (hash_table_insert_spec ht r Hwf) as (next & Hn & Heq).
  rewrite Heq in Hins. injection Hins as <-.
  unfold hash_table_remove. simpl.
  rewrite list_lookup_insert_eq by (by eapply lookup_lt_Some). simpl.
  rewrite key_match_self, list_insert_insert_eq, list_insert_id by done.
  by destruct ht.
Qed.

(** X3. Insert followed by remove of the inserted key is the identity on
    the table: the remove finds the new node at the head of its bucket and
    unlinks that very node, older nodes of the same key included. *)
Theorem remove_undoes_insert (ht ht' : HashTable) (r : RouteInfo) :
  wf_table ht →
  hash_table_insert true ht r = Some ht' →
  hash_table_remove ht' r.(destination) r.(ifindex) = Some ht.
Proof. apply hash_table_remove_after_insert. Qed.

Lemma remove_undoes_insert_witness :
  hash_table_remove
    (table_of [OpInsert true route_a; OpInsert true route_a2])
    route_a2.(destination) route_a2.(ifindex)
  = Some (table_of [OpInsert true route_a]).
Proof.
  apply (remove_undoes_insert (table_of [OpInsert true route_a])
           (table_of [OpInsert true route_a; OpInsert true route_a2])
           route_a2).
  - split; vm_compute; reflexivity.
  - vm_compute. reflexivity.
Defined.

Lemma chain_remove_cases chain d i :
  chain_remove chain d i = chain
  ∨ ∃ pre r post,
      chain = pre ++ r :: post ∧ key_match d i r = true
      ∧ chain_remove chain d i = pre ++ post.
Proof.
  induction chain as [|x chain IH]; simpl; [by left|].
  destruct (key_match d i x) eqn:Ex.
  - right. by exists [], x, chain.
  - destruct IH as [->|(pre & r & post & -> & Hm & ->)]; [by left|].
    right. by exists (x :: pre), r, post.
Qed.

(** X4. A remove never takes more than one node, takes none that the
    table did not hold, and can only take a node whose [ifindex] is the one
    asked for: the scan for any other interface reports after the remove
    what the table held for that interface before. *)
Theorem remove_takes_at_most_one_node_of_its_interface
    (ht ht' : HashTable) (d : string) (i : Z) (out : list Line) :
  wf_table ht →
  hash_table_remove ht d i = Some ht' →
  (length (entries ht') ≤ length (entries ht) ≤ S (length (entries ht')))%nat
  ∧ (∀ r, r ∈ entries ht' → r ∈ entries ht)
  ∧ ∀ J, J ≠ i →
      hash_table_find_by_ifindex ht' J print_invalidated_route out
      = Some (ht', out ++ map invalidated (owned_by J (entries ht))).
Proof.
  intros Hwf Hrem.
  destruct (hash_table_remove_spec ht d i Hwf) as (current & Hc & Heq).
  rewrite Heq in Hrem. injection Hrem as Hht'.
  assert (wf_table ht') as Hwf'.
  { subst ht'. destruct Hwf. split; simpl; [done|]. by rewrite length_insert. }
  destruct (concat_bucket _ _ _ Hc) as [Hold Hnew].
  assert (entries ht'
          = concat (take (Z.to_nat (hash_function d i (size ht))) (buckets ht))
            ++ chain_remove current d i
            ++ concat (drop (S (Z.to_nat (hash_function d i (size ht))))
                         (buckets ht))) as He'
    by (subst ht'; apply Hnew).
  fold (entries ht) in Hold. clear Hht' Hnew Heq.
  assert (∀ J, hash_table_find_by_ifindex ht' J print_invalidated_route out
               = Some (ht', out ++ map invalidated (owned_by J (entries ht'))))
    as Hfind by (intros J; by apply find_by_ifindex_print).
  rewrite Hold. rewrite He' in *.
  destruct (chain_remove_cases current d i)
    as [Hsame|(pre & r & post & -> & Hm & Hcut)].
  - rewrite Hsame in *. split_and!; [lia|lia|done|]. intros J _. apply Hfind.
  - rewrite Hcut in *.
    apply andb_true_iff in Hm as [_ Hi%Z.eqb_eq]. split_and!.
    + rewrite !length_app. simpl. lia.
    + rewrite !length_app. simpl. lia.
    + intros x. rewrite !elem_of_app, elem_of_cons. tauto.
    + intros J HJ. rewrite Hfind. unfold owned_by.
      rewrite !filter_app, filter_cons, decide_False by congruence. done.
Qed.

Lemma remove_takes_at_most_one_node_of_its_interface_witness :
  (length (entries (table_of [OpInsert true route_b]))
   ≤ length (entries (table_of [OpInsert true route_a; OpInsert true route_b]))
   ≤ S (length (entries (table_of [OpInsert true route_b]))))%nat
  ∧ (∀ r, r ∈ entries (table_of [OpInsert true route_b]) →
          r ∈ entries (table_of [OpInsert true route_a; OpInsert true route_b]))
  ∧ ∀ J, J ≠ 3 →
      hash_table_find_by_ifindex (table_of [OpInsert true route_b]) J
        print_invalidated_route []
      = Some (table_of [OpInsert true route_b],
              [] ++ map invalidated
                      (owned_by J
                         (entries (table_of [OpInsert true route_a;
                                             OpInsert true route_b])))).
Proof.
  apply (remove_takes_at_most_one_node_of_its_interface
           (table_of [OpInsert true route_a; OpInsert true route_b])
           (table_of [OpInsert true route_b]) "10.0.0.0/24" 3 []).
  - split; vm_compute; reflexivity.
  - vm_compute. reflexivity.
Defined.

(** X5. The hash reads its string as [strcmp] does, up to the first NUL:
    two buffers that [strcmp] finds equal hash to the same bucket, for
    every index and every positive bucket count. *)
Theorem hash_function_agrees_on_equal_strings (a b : string) (i n : Z) :
  0 < n → strcmp a b = 0 → hash_function a i n = hash_function b i n.
Proof.
  intros _ H%strcmp_zero.
  by rewrite <- (hash_function_c_str a), H, hash_function_c_str.
Qed.

Lemma hash_function_agrees_on_equal_strings_witness :
  hash_function "10.0.0.0/24" 3 128
  = hash_function ("10.0.0.0/24" +:+ String Ascii.zero "192.168") 3 128.
Proof.
  apply (hash_function_agrees_on_equal_strings "10.0.0.0/24"
           ("10.0.0.0/24" +:+ String Ascii.zero "192.168") 3 128).
  - lia.
  - reflexivity.
Defined.

(** ** Release of the table *)

Lemma free_chain_nodes chain : free_chain chain = map FreedNode chain.
Proof. induction chain as [|r chain IH]; simpl; [done|]. by rewrite IH. Qed.

Lemma free_loop_buckets rest pre s :
  free_loop (length rest) (length pre) {| buckets := pre ++ rest; size := s |}
  = Some (map FreedNode (concat rest)).
Proof.
  revert pre. induction rest as [|c rest IH]; intros pre; simpl; [done|].
  rewrite list_lookup_middle by done. simpl.
  replace (pre ++ c :: rest) with ((pre ++ [c]) ++ rest)
    by (by rewrite <- app_assoc).
  replace (S (length pre)) with (length (pre ++ [c]))
    by (rewrite length_app; simpl; lia).
  rewrite IH. simpl. by rewrite free_chain_nodes, map_app.
Qed.

Lemma hash_table_free_spec ht :
  wf_table ht →
  hash_table_free (Some ht)
  = Some (map FreedNode (entries ht) ++ [FreedBuckets; FreedTable]).
Proof.
  intros [_ Hlen]. unfold hash_table_free, entries.
  destruct ht as [bs s]. simpl in *. subst s. rewrite Nat2Z.id.
  pose proof (free_loop_buckets bs [] (Z.of_nat (length bs))) as Hloop.
  simpl in Hloop. by rewrite Hloop.
Qed.

(** X6. [hash_table_free] stays inside the bucket array and frees every
    node of the table exactly once, bucket after bucket and each chain from
    its head, then the bucket array, then the table itself; handed [NULL]
    it frees nothing. *)
Theorem hash_table_free_frees_every_node_once (ht : HashTable) :
  wf_table ht →
  hash_table_free (Some ht)
  = Some (map FreedNode (entries ht) ++ [FreedBuckets; FreedTable])
  ∧ hash_table_free None = Some [].
Proof. intros Hwf. split; [by apply hash_table_free_spec|done]. Qed.

Lemma hash_table_free_frees_every_node_once_witness :
  hash_table_free
    (Some (table_of [OpInsert true route_a; OpInsert true route_a2;
                     OpInsert true route_b]))
  = Some [FreedNode route_b; FreedNode route_a2; FreedNode route_a;
          FreedBuckets; FreedTable]
  ∧ hash_table_free None = Some [].
Proof.
  apply (hash_table_free_frees_every_node_once
           (table_of [OpInsert true route_a; OpInsert true route_a2;
                      OpInsert true route_b])).
  split; vm_compute; reflexivity.
Defined.

(** ** Buffers *)

Lemma c_str_take k s :
  c_str (string_of_list_ascii (take k (list_ascii_of_string (c_str s))))
  = string_of_list_ascii (take k (list_ascii_of_string (c_str s))).
Proof.
  revert k. induction s as [|c r IH]; intros k; simpl.
  - by rewrite take_nil.
  - destruct (is_nul c) eqn:E; simpl; [by rewrite take_nil|].
    destruct k as [|k]; simpl; [done|]. by rewrite E, IH.
Qed.

Lemma buf_store_c_str n s : c_str (buf_store n s) = buf_store n s.
Proof. apply c_str_take. Qed.

Lemma buf_store_length n s : (String.length (buf_store n s) ≤ n - 1)%nat.
Proof.
  unfold buf_store.
  generalize (list_ascii_of_string (c_str s)) as l. generalize (n - 1)%nat as k.
  intros k l. revert k. induction l as [|c l IH]; intros [|k]; simpl; try lia.
  specialize (IH k). lia.
Qed.

Lemma buf_store_fits s : fits_buffer (buf_store INET6_ADDRSTRLEN s).
Proof.
  split; [|apply buf_store_c_str].
  pose proof (buf_store_length INET6_ADDRSTRLEN s). unfold INET6_ADDRSTRLEN in *.
  lia.
Qed.

Lemma string_length_list s : length (list_ascii_of_string s) = String.length s.
Proof. induction s as [|c s IH]; simpl; [done|]. by rewrite IH. Qed.

(** Storing a string that fits gives the string back. *)
Lemma buf_store_of_fitting s :
  fits_buffer s → buf_store INET6_ADDRSTRLEN s = s.
Proof.
  intros [Hlen Hc]. unfold buf_store. rewrite Hc.
  rewrite take_ge.
  - apply string_of_list_ascii_of_string.
  - rewrite string_length_list. unfold INET6_ADDRSTRLEN in *. lia.
Qed.

Lemma route_of_msg_fits msg : fits_buffers (route_of_msg msg).
Proof.
  split; simpl.
  - destruct (route_dst msg); [apply buf_store_fits|]. split; [|done].
    vm_compute. lia.
  - destruct (route_nexthop msg) as [[i [gw|]]|];
      [apply buf_store_fits| |]; (split; [|done]); vm_compute; lia.
Qed.

(** ** [route_callback] *)

Lemma route_callback_decoded msg node_ok ht out :
  decodes msg = true →
  route_callback msg node_ok ht out
  = let r := route_of_msg msg in
    match msg.(route_nlmsg_type) with
    | RTM_NEWROUTE =>
        ht' ← hash_table_insert node_ok ht r;
        Some (NL_OK, ht',
              out ++ [RouteAdded r.(destination) r.(ifindex) r.(gateway)
                        r.(metric)])
    | RTM_DELROUTE =>
        ht' ← hash_table_remove ht r.(destination) r.(ifindex);
        Some (NL_OK, ht',
              out ++ [RouteDeleted r.(destination) r.(ifindex) r.(gateway)
                        r.(metric)])
    | _ => Some (NL_SKIP, ht, out)
    end.
Proof.
  unfold decodes. intros [Ha Hp%negb_true_iff]%andb_true_iff.
  pose proof (route_of_msg_fits msg) as [Hd Hg].
  apply buf_store_of_fitting in Hd, Hg.
  unfold route_callback. rewrite Ha, Hp.
  destruct msg as [type al pa et dst nh pr]. simpl in *.
  destruct type; simpl; try done.
  - destruct nh as [[i [gw|]]|]; simpl in *; rewrite ?Hd, ?Hg; done.
  - destruct nh as [[i [gw|]]|]; simpl in *; done.
Qed.

Lemma route_callback_undecoded msg node_ok ht out :
  decodes msg = false →
  route_callback msg node_ok ht out
  = match msg.(route_nlmsg_type) with
    | RTM_NEWROUTE | RTM_DELROUTE =>
        Some (NL_OK, ht,
              out ++ [Stderr
                        (if negb msg.(route_alloc)
                         then "Failed to allocate route object"
                         else "Failed to parse route: "
                              +:+ msg.(route_errtext))])
    | _ => Some (NL_SKIP, ht, out)
    end.
Proof.
  unfold decodes, route_callback. intros H.
  destruct msg as [type al pa et dst nh pr]. simpl in *.
  destruct type; simpl; try done;
    destruct al; simpl in *; try done;
    apply negb_false_iff in H; by rewrite H.
Qed.

(** The callback appends at most one line, stays inside the bucket array
    and keeps the table a cache state. *)
Lemma route_callback_invariant msg node_ok ht :
  wf_table ht → well_placed ht →
  ∃ act ht' lines,
    (∀ out, route_callback msg node_ok ht out = Some (act, ht', out ++ lines))
    ∧ (length lines ≤ 1)%nat
    ∧ wf_table ht' ∧ well_placed ht' ∧ ht'.(size) = ht.(size)
    ∧ (∀ r, r ∈ entries ht' → r ∈ entries ht ∨ r = route_of_msg msg).
Proof.
  intros Hwf Hwp.
  destruct (decodes msg) eqn:Hdec.
  - destruct (route_nlmsg_type msg) eqn:Ht.
    1-4,7: exists NL_SKIP, ht, []; split_and!; auto;
      intros out; rewrite route_callback_decoded, Ht by done; simpl;
      by rewrite app_nil_r.
    + destruct node_ok.
      * destruct (hash_table_insert_spec ht (route_of_msg msg) Hwf)
          as (next & _ & Heq).
        destruct (hash_table_insert true ht (route_of_msg msg))
          as [ht1|] eqn:Hins; [clear Heq|done].
        destruct (hash_table_insert_entries ht _ ht1 Hwf Hins)
          as (Hwf1 & Hs & Hp).
        pose proof (hash_table_insert_well_placed ht _ ht1 Hwf Hwp Hins).
        eexists NL_OK, ht1, [_]. split_and!; try done.
        -- intros out. rewrite route_callback_decoded, Ht by done. cbv zeta.
           by rewrite Hins.
        -- intros r Hr. rewrite Hp in Hr.
           apply elem_of_cons in Hr as [->|Hr]; auto.
      * eexists NL_OK, ht, [_]. split_and!; auto.
        intros out. by rewrite route_callback_decoded, Ht by done.
    + destruct (hash_table_remove_spec ht (destination (route_of_msg msg))
                  (ifindex (route_of_msg msg)) Hwf) as (cur & Hc & Heq).
      destruct (hash_table_remove ht (destination (route_of_msg msg))
                  (ifindex (route_of_msg msg))) as [ht1|] eqn:Hrem;
        [|done].
      destruct (hash_table_remove_invariant ht _ _ ht1 Hwf Hwp Hrem)
        as (Hwf1 & Hwp1 & Hs).
      eexists NL_OK, ht1, [_]. split_and!; try done.
      -- intros out. rewrite route_callback_decoded, Ht by done. cbv zeta.
         by rewrite Hrem.
      -- intros r Hr. left. injection Heq as ->.
         apply elem_of_entries in Hr as (j & chain & Hj & Hr). simpl in Hj.
         apply elem_of_entries.
         destruct (decide (j = Z.to_nat
                     (hash_function (destination (route_of_msg msg))
                        (ifindex (route_of_msg msg)) (size ht))))
           as [->|Hne].
         ++ rewrite list_lookup_insert_eq in Hj by (by eapply lookup_lt_Some).
            injection Hj as <-. apply chain_remove_subseteq in Hr. eauto.
         ++ rewrite list_lookup_insert_ne in Hj by done. eauto.
  - destruct (route_nlmsg_type msg) eqn:Ht.
    1-4,7: exists NL_SKIP, ht, []; split_and!; auto;
      intros out; rewrite route_callback_undecoded, Ht by done; simpl;
      by rewrite app_nil_r.
    all: eexists NL_OK, ht, [_]; split_and!; auto;
      intros out; by rewrite route_callback_undecoded, Ht by done.
Qed.

(** ** [link_callback] and [addr_callback] on any message *)

Lemma link_callback_invariant msg ht :
  wf_table ht →
  ∃ act lines, ∀ out, link_callback msg ht out = Some (act, ht, out ++ lines).
Proof.
  intros Hwf. destruct msg as [type [ifindex|]]; unfold link_callback; simpl.
  - destruct type; simpl;
      try (by exists NL_SKIP, []; intros out; rewrite app_nil_r);
      try (by eexists NL_OK, [_]).
    eexists NL_OK, (_ :: _). intros out.
    rewrite find_by_ifindex_print by done. simpl. by rewrite <- app_assoc.
  - destruct type; simpl;
      try (by exists NL_SKIP, []; intros out; rewrite app_nil_r);
      by eexists NL_OK, [_].
Qed.

Lemma addr_callback_invariant msg ht :
  wf_table ht →
  ∃ act lines, ∀ out, addr_callback msg ht out = Some (act, ht, out ++ lines).
Proof.
  intros Hwf. destruct msg as [type [[ifindex attrs]|]];
    unfold addr_callback; simpl.
  - destruct type; simpl;
      try (by exists NL_SKIP, []; intros out; rewrite app_nil_r).
    destruct (first_address attrs); simpl.
    + eexists NL_OK, (_ :: _). intros out.
      rewrite find_by_ifindex_print by done. simpl. by rewrite <- app_assoc.
    + exists NL_OK, []. intros out. by rewrite app_nil_r.
  - destruct type; simpl;
      try (by exists NL_SKIP, []; intros out; rewrite app_nil_r);
      by eexists NL_OK, [_].
Qed.

(** ** Batches of messages *)

Lemma deliver_app {M} (cb : M → HashTable → list Line → option cb_result)
    msgs1 msgs2 ht out :
  deliver cb (msgs1 ++ msgs2) ht out
  = deliver cb msgs1 ht out ≫= λ '(ht1, out1), deliver cb msgs2 ht1 out1.
Proof.
  revert ht out. induction msgs1 as [|m msgs1 IH]; intros ht out; simpl.
  - done.
  - destruct (cb m ht out) as [[[act ht1] out1]|]; simpl; [apply IH|done].
Qed.

Section batches.
Context {M : Type} (cb : M → HashTable → list Line → option cb_result).
Context (Inv : HashTable → Prop).
Hypothesis cb_keeps :
  ∀ m ht, Inv ht →
    ∃ act ht' lines,
      (∀ out, cb m ht out = Some (act, ht', out ++ lines)) ∧ Inv ht'.

Lemma deliver_invariant msgs ht :
  Inv ht →
  ∃ ht' lines,
    (∀ out, deliver cb msgs ht out = Some (ht', out ++ lines)) ∧ Inv ht'.
Proof.
  revert ht. induction msgs as [|m msgs IH]; intros ht Hinv; simpl.
  - exists ht, []. split; [|done]. intros out. by rewrite app_nil_r.
  - destruct (cb_keeps m ht Hinv) as (act & ht1 & l1 & Hcb & Hinv1).
    destruct (IH ht1 Hinv1) as (ht2 & l2 & Hrest & Hinv2).
    exists ht2, (l1 ++ l2). split; [|done].
    intros out. rewrite Hcb. simpl. rewrite Hrest. by rewrite app_assoc.
Qed.

Lemma recv_on_invariant what errtext ready ht :
  Inv ht →
  ∃ ht' lines,
    (∀ out, recv_on cb what errtext ready ht out = Some (ht', out ++ lines))
    ∧ Inv ht'.
Proof.
  intros Hinv. destruct ready as [[msgs ret]|]; simpl.
  - destruct (deliver_invariant msgs ht Hinv) as (ht' & lines & Hd & Hinv').
    destruct (ret <? 0).
    + eexists ht', (lines ++ [_]). split; [|done].
      intros out. rewrite Hd. simpl. by rewrite app_assoc.
    + exists ht', lines. split; [|done]. intros out. by rewrite Hd.
  - exists ht, []. split; [|done]. intros out. by rewrite app_nil_r.
Qed.
End batches.

Lemma route_cb_keeps n m ht :
  cache_state n ht →
  ∃ act ht' lines,
    (∀ out, route_cb m ht out = Some (act, ht', out ++ lines))
    ∧ cache_state n ht'.
Proof.
  intros (Hwf & Hwp & Hs & Hfit). unfold route_cb.
  destruct (route_callback_invariant m.1 m.2 ht Hwf Hwp)
    as (act & ht' & lines & Hcb & _ & Hwf' & Hwp' & Hs' & Hsub).
  exists act, ht', lines. split; [done|]. split_and!; try done; [congruence|].
  intros r Hr. destruct (Hsub r Hr) as [Hold| ->]; [by apply Hfit|].
  apply route_of_msg_fits.
Qed.

Lemma link_callback_keeps n m ht :
  cache_state n ht →
  ∃ act ht' lines,
    (∀ out, link_callback m ht out = Some (act, ht', out ++ lines))
    ∧ cache_state n ht'.
Proof.
  intros Hc. destruct (link_callback_invariant m ht) as (act & lines & H);
    [apply Hc|]. by exists act, ht, lines.
Qed.

Lemma addr_callback_keeps n m ht :
  cache_state n ht →
  ∃ act ht' lines,
    (∀ out, addr_callback m ht out = Some (act, ht', out ++ lines))
    ∧ cache_state n ht'.
Proof.
  intros Hc. destruct (addr_callback_invariant m ht) as (act & lines & H);
    [apply Hc|]. by exists act, ht, lines.
Qed.

(** ** The loop of [main] *)

Lemma main_loop_invariant n errtext ws ht :
  cache_state n ht →
  ∃ st ht' lines,
    (∀ out, main_loop errtext ws ht out = Some (st, ht', out ++ lines))
    ∧ cache_state n ht'
    ∧ (st = LoopBroke ↔ ∃ w, w ∈ ws ∧ w.(select_ret) < 0).
Proof.
  revert ht. induction ws as [|w ws IH]; intros ht Hinv; simpl.
  - exists LoopWaiting, ht, []. split_and!; [|done|].
    + intros out. by rewrite app_nil_r.
    + split; [done|]. intros (w & Hw & _). by apply elem_of_nil in Hw.
  - destruct (Z.ltb_spec (select_ret w) 0) as [Hneg|Hpos].
    + eexists LoopBroke, ht, [_]. split_and!; [done|done|].
      split; [|done]. intros _. exists w. split; [left|done].
    + destruct (recv_on_invariant route_cb (cache_state n) (route_cb_keeps n)
                  "route" errtext (route_ready w) ht Hinv)
        as (ht1 & l1 & H1 & Hinv1).
      destruct (recv_on_invariant link_callback (cache_state n)
                  (link_callback_keeps n) "link" errtext (link_ready w)
                  ht1 Hinv1) as (ht2 & l2 & H2 & Hinv2).
      destruct (recv_on_invariant addr_callback (cache_state n)
                  (addr_callback_keeps n) "addr" errtext (addr_ready w)
                  ht2 Hinv2) as (ht3 & l3 & H3 & Hinv3).
      destruct (IH ht3 Hinv3) as (st & ht' & l4 & H4 & Hinv4 & Hst).
      exists st, ht', (l1 ++ l2 ++ l3 ++ l4). split_and!; [|done|].
      * intros out. rewrite H1. simpl. rewrite H2. simpl. rewrite H3. simpl.
        rewrite H4. by rewrite <- !app_assoc.
      * rewrite Hst. split.
        -- intros (w' & Hw' & Hneg). exists w'. split; [by right|done].
        -- intros (w' & [->|Hw']%elem_of_cons & Hneg); [lia|eauto].
Qed.

Lemma main_loop_stops errtext pre w post ht out :
  w.(select_ret) < 0 →
  main_loop errtext (pre ++ w :: post) ht out
  = main_loop errtext (pre ++ [w]) ht out.
Proof.
  intros Hneg. revert ht out.
  induction pre as [|w' pre IH]; intros ht out; simpl.
  - destruct (Z.ltb_spec (select_ret w) 0); [done|lia].
  - destruct (select_ret w' <? 0); [done|].
    destruct (recv_on route_cb "route" errtext (route_ready w') ht out)
      as [[ht1 out1]|]; simpl; [|done].
    destruct (recv_on link_callback "link" errtext (link_ready w') ht1 out1)
      as [[ht2 out2]|]; simpl; [|done].
    destruct (recv_on addr_callback "addr" errtext (addr_ready w') ht2 out2)
      as [[ht3 out3]|]; simpl; [|done].
    apply IH.
Qed.

Lemma empty_table_cache_state : cache_state HASH_SIZE empty_table.
Proof.
  destruct (hash_table_init_spec HASH_SIZE empty_table) as (? & ? & He & ?);
    [done|done|].
  split_and!; try done. intros r Hr. rewrite He in Hr.
  by apply elem_of_nil in Hr.
Qed.

(** X7. The event loop keeps the cache a cache state.  Started on a table
    of [n] buckets in which every node sits in the bucket of its key and
    every stored string fits its array, the loop of [main] never reads or
    writes outside the bucket array, whatever messages the three sockets
    bring and whichever allocations fail, and the table it arrives at is
    again such a table of [n] buckets; what it prints is appended to the
    output and does not depend on what was printed before. *)
Theorem event_loop_keeps_the_cache_state
    (n : Z) (errtext : string) (ws : list wakeup) (ht : HashTable) :
  cache_state n ht →
  ∃ st ht' lines,
    (∀ out, main_loop errtext ws ht out = Some (st, ht', out ++ lines))
    ∧ cache_state n ht'.
Proof.
  intros Hinv.
  destruct (main_loop_invariant n errtext ws ht Hinv)
    as (st & ht' & lines & Hloop & Hinv' & _).
  by exists st, ht', lines.
Qed.

Lemma event_loop_keeps_the_cache_state_witness :
  ∃ st ht' lines,
    (∀ out, main_loop "Unspecific failure"
              [wakeup_route_a_added; wakeup_link_3_deleted] empty_table out
            = Some (st, ht', out ++ lines))
    ∧ cache_state HASH_SIZE ht'.
Proof.
  apply (event_loop_keeps_the_cache_state HASH_SIZE "Unspecific failure"
           [wakeup_route_a_added; wakeup_link_3_deleted] empty_table).
  apply empty_table_cache_state.
Defined.

(** A route added and its link deleted: the run of the two wake-ups. *)
Example route_added_then_link_deleted :
  main_loop "Unspecific failure"
    [wakeup_route_a_added; wakeup_link_3_deleted] empty_table []
  = Some (LoopWaiting, table_of [OpInsert true route_a],
          [RouteAdded "10.0.0.0/24" 3 "192.168.1.1" 100;
           LinkDeleted 3;
           RouteInvalidated "10.0.0.0/24" 3 "192.168.1.1" 100]).
Proof. vm_compute. reflexivity. Qed.

(** *** Failing receives in the loop *)

Lemma with_recv_failures_refl errtext l : with_recv_failures errtext l l.
Proof. induction l; by constructor. Qed.

Lemma with_recv_failures_app errtext f1 q1 f2 q2 :
  with_recv_failures errtext f1 q1 → with_recv_failures errtext f2 q2 →
  with_recv_failures errtext (f1 ++ f2) (q1 ++ q2).
Proof. intros H1 H2. induction H1; simpl; [done| |]; by constructor. Qed.

Lemma with_recv_failures_one errtext what (failed : bool) :
  what ∈ ["route"; "link"; "addr"]%string →
  with_recv_failures errtext
    (if failed then [receive_failure what errtext] else []) [].
Proof.
  intros Hw. destruct failed; [|constructor].
  apply wrf_failure; [done|constructor].
Qed.

Lemma with_recv_failures_step errtext what (failed : bool) l full quiet :
  what ∈ ["route"; "link"; "addr"]%string →
  with_recv_failures errtext full quiet →
  with_recv_failures errtext
    (l ++ (if failed then [receive_failure what errtext] else []) ++ full)
    (l ++ quiet).
Proof.
  intros Hw Hrel.
  apply with_recv_failures_app; [apply with_recv_failures_refl|].
  rewrite <- (app_nil_l quiet).
  apply with_recv_failures_app; [by apply with_recv_failures_one|done].
Qed.

Section failing_receives.
Context {M : Type} (cb : M → HashTable → list Line → option cb_result).
Context (Inv : HashTable → Prop).
Hypothesis cb_keeps :
  ∀ m ht, Inv ht →
    ∃ act ht' lines,
      (∀ out, cb m ht out = Some (act, ht', out ++ lines)) ∧ Inv ht'.

(** A failing receive leaves the table the callbacks made of the messages
    and adds its one line after theirs. *)
Lemma recv_on_failure what errtext ready ht :
  Inv ht →
  ∃ ht' lines,
    (∀ out, recv_on cb what errtext ready ht out
            = Some (ht', out ++ lines
                           ++ (if receive_failed ready
                               then [receive_failure what errtext] else [])))
    ∧ (∀ out, recv_on cb what errtext (recv_succeeding ready) ht out
              = Some (ht', out ++ lines))
    ∧ Inv ht'.
Proof.
  intros Hinv. destruct ready as [[msgs ret]|]; simpl.
  - destruct (deliver_invariant cb Inv cb_keeps msgs ht Hinv)
      as (ht' & lines & Hd & Hinv').
    exists ht', lines. split_and!; [|by intros out; rewrite Hd|done].
    intros out. rewrite Hd. simpl. destruct (ret <? 0).
    + by rewrite <- app_assoc.
    + by rewrite app_nil_r.
  - exists ht, []. split_and!; [|by intros out; rewrite app_nil_r|done].
    intros out. by rewrite !app_nil_r.
Qed.
End failing_receives.

Lemma main_loop_recv_failures n errtext ws ht :
  cache_state n ht →
  ∃ st ht' lines lines_q,
    (∀ out, main_loop errtext ws ht out = Some (st, ht', out ++ lines))
    ∧ (∀ out, main_loop errtext (map all_received ws) ht out
              = Some (st, ht', out ++ lines_q))
    ∧ with_recv_failures errtext lines lines_q
    ∧ length lines = (length lines_q + failed_receives ws)%nat.
Proof.
  revert ht. induction ws as [|w ws IH]; intros ht Hinv; simpl.
  - exists LoopWaiting, ht, [], []. split_and!; try done.
    + intros out. by rewrite app_nil_r.
    + intros out. by rewrite app_nil_r.
    + constructor.
  - destruct (select_ret w <? 0).
    + eexists LoopBroke, ht, [_], [_]. split_and!; try done.
      apply with_recv_failures_refl.
    + destruct (recv_on_failure route_cb (cache_state n) (route_cb_keeps n)
                  "route" errtext (route_ready w) ht Hinv)
        as (ht1 & l1 & H1 & Q1 & Hinv1).
      destruct (recv_on_failure link_callback (cache_state n)
                  (link_callback_keeps n) "link" errtext (link_ready w)
                  ht1 Hinv1) as (ht2 & l2 & H2 & Q2 & Hinv2).
      destruct (recv_on_failure addr_callback (cache_state n)
                  (addr_callback_keeps n) "addr" errtext (addr_ready w)
                  ht2 Hinv2) as (ht3 & l3 & H3 & Q3 & Hinv3).
      destruct (IH ht3 Hinv3) as (st & ht' & l4 & q4 & H4 & Q4 & Hrel & Hlen).
      exists st, ht',
        (l1 ++ (if receive_failed (route_ready w)
                then [receive_failure "route" errtext] else [])
            ++ l2 ++ (if receive_failed (link_ready w)
                      then [receive_failure "link" errtext] else [])
            ++ l3 ++ (if receive_failed (addr_ready w)
                      then [receive_failure "addr" errtext] else [])
            ++ l4),
        (l1 ++ l2 ++ l3 ++ q4).
      split_and!.
      * intros out. rewrite H1. simpl. rewrite H2. simpl. rewrite H3. simpl.
        rewrite H4. by rewrite <- !app_assoc.
      * intros out. rewrite Q1. simpl. rewrite Q2. simpl. rewrite Q3. simpl.
        rewrite Q4. by rewrite <- !app_assoc.
      * apply with_recv_failures_step; [by repeat constructor|].
        apply with_recv_failures_step; [by repeat constructor|].
        by apply with_recv_failures_step; [by repeat constructor|].
      * rewrite !length_app, Hlen.
        destruct (receive_failed (route_ready w)),
                 (receive_failed (link_ready w)),
                 (receive_failed (addr_ready w)); simpl; lia.
Qed.

(** X8. Only a failing [select] ends the event loop.  The loop is left by
    [break] exactly when some wake-up has a negative [select] result, and
    the wake-ups after the failing [select] are not looked at.  A negative
    result of [nl_recvmsgs_default] only adds a line to the output: the
    loop ends in the same state, with the same table, as on the same
    wake-ups with every receive succeeding, and its output is the output
    of that run with one "Failed to receive ... messages" line put in for
    each failing receive. *)
Theorem event_loop_ends_only_when_select_fails
    (n : Z) (errtext : string) (ws : list wakeup) (ht : HashTable)
    (out : list Line) :
  cache_state n ht →
  ∃ st ht' lines lines_q,
    main_loop errtext ws ht out = Some (st, ht', out ++ lines)
    ∧ (st = LoopBroke ↔ ∃ w, w ∈ ws ∧ w.(select_ret) < 0)
    ∧ (∀ pre w post,
         ws = pre ++ w :: post → w.(select_ret) < 0 →
         main_loop errtext (pre ++ [w]) ht out = Some (st, ht', out ++ lines))
    ∧ main_loop errtext (map all_received ws) ht out
      = Some (st, ht', out ++ lines_q)
    ∧ with_recv_failures errtext lines lines_q
    ∧ length lines = (length lines_q + failed_receives ws)%nat.
Proof.
  intros Hinv.
  destruct (main_loop_invariant n errtext ws ht Hinv)
    as (st & ht' & lines & Hloop & _ & Hst).
  destruct (main_loop_recv_failures n errtext ws ht Hinv)
    as (st2 & ht2 & lines2 & lines_q & Hloop2 & Hquiet & Hrel & Hlen).
  pose proof (Hloop2 out) as Heq. rewrite Hloop in Heq.
  injection Heq as <- <- Hl%app_inv_head. subst lines2.
  exists st, ht', lines, lines_q. split_and!; try done.
  intros pre w post -> Hneg. rewrite <- Hloop.
  symmetry. by apply main_loop_stops.
Qed.

Lemma event_loop_ends_only_when_select_fails_witness :
  ∃ st ht' lines lines_q,
    main_loop "Unspecific failure"
      [wakeup_route_recv_fails; wakeup_select_fails; wakeup_link_3_deleted]
      empty_table [] = Some (st, ht', [] ++ lines)
    ∧ (st = LoopBroke
       ↔ ∃ w, w ∈ [wakeup_route_recv_fails; wakeup_select_fails;
                    wakeup_link_3_deleted] ∧ w.(select_ret) < 0)
    ∧ (∀ pre w post,
         [wakeup_route_recv_fails; wakeup_select_fails; wakeup_link_3_deleted]
         = pre ++ w :: post → w.(select_ret) < 0 →
         main_loop "Unspecific failure" (pre ++ [w]) empty_table []
         = Some (st, ht', [] ++ lines))
    ∧ main_loop "Unspecific failure"
        (map all_received
           [wakeup_route_recv_fails; wakeup_select_fails;
            wakeup_link_3_deleted]) empty_table []
      = Some (st, ht', [] ++ lines_q)
    ∧ with_recv_failures "Unspecific failure" lines lines_q
    ∧ length lines
      = (length lines_q
         + failed_receives [wakeup_route_recv_fails; wakeup_select_fails;
                            wakeup_link_3_deleted])%nat.
Proof.
  apply (event_loop_ends_only_when_select_fails HASH_SIZE "Unspecific failure"
           [wakeup_route_recv_fails; wakeup_select_fails;
            wakeup_link_3_deleted] empty_table []).
  apply empty_table_cache_state.
Defined.

(** A receive that fails after its messages were handled: the route is in
    the table, the failure is one line, and the loop goes on to the next
    wake-up. *)
Example receive_fails_and_the_loop_goes_on :
  main_loop "Unspecific failure"
    [wakeup_route_recv_fails; wakeup_link_3_deleted] empty_table []
  = Some (LoopWaiting, table_of [OpInsert true route_a],
          [RouteAdded "10.0.0.0/24" 3 "192.168.1.1" 100;
           Stderr "Failed to receive route messages: Unspecific failure";
           LinkDeleted 3;
           RouteInvalidated "10.0.0.0/24" 3 "192.168.1.1" 100]).
Proof. vm_compute. reflexivity. Qed.

(** X9. A route-deleted message undoes the route-added message of the
    same destination and the same interface index, whatever the gateways
    and priorities the two messages show: after both the table is what it
    was before the first, bucket for bucket. *)
Theorem route_deleted_undoes_route_added
    (added deleted : route_msg) (node_ok : bool) (ht : HashTable)
    (out : list Line) :
  wf_table ht →
  added.(route_nlmsg_type) = RTM_NEWROUTE →
  deleted.(route_nlmsg_type) = RTM_DELROUTE →
  decodes added = true → decodes deleted = true →
  deleted.(route_dst) = added.(route_dst) →
  ifindex (route_of_msg deleted) = ifindex (route_of_msg added) →
  ∃ ht1 line1 line2,
    route_callback added true ht out = Some (NL_OK, ht1, out ++ [line1])
    ∧ route_callback deleted node_ok ht1 (out ++ [line1])
      = Some (NL_OK, ht, out ++ [line1; line2]).
Proof.
  intros Hwf Ha Hd Hda Hdd Hdst Hidx.
  destruct (hash_table_insert_spec ht (route_of_msg added) Hwf)
    as (next & _ & Heq).
  destruct (hash_table_insert true ht (route_of_msg added))
    as [ht1|] eqn:Hins; [clear Heq|done].
  pose proof (hash_table_remove_after_insert ht ht1 _ Hwf Hins) as Hrem.
  eexists ht1, _, _. split.
  - rewrite route_callback_decoded, Ha by done. cbv zeta. by rewrite Hins.
  - rewrite route_callback_decoded, Hd by done. cbv zeta.
    assert (destination (route_of_msg deleted)
            = destination (route_of_msg added)) as ->
      by (simpl; by rewrite Hdst).
    rewrite Hidx, Hrem. simpl. by rewrite <- app_assoc.
Qed.

Lemma route_deleted_undoes_route_added_witness :
  ∃ ht1 line1 line2,
    route_callback (msg_route_a RTM_NEWROUTE 100) true
      (table_of [OpInsert true route_b]) []
    = Some (NL_OK, ht1, [] ++ [line1])
    ∧ route_callback (msg_route_a RTM_DELROUTE 0) true ht1 ([] ++ [line1])
      = Some (NL_OK, table_of [OpInsert true route_b],
              [] ++ [line1; line2]).
Proof.
  apply (route_deleted_undoes_route_added
           (msg_route_a RTM_NEWROUTE 100) (msg_route_a RTM_DELROUTE 0) true
           (table_of [OpInsert true route_b]) []).
  - split; vm_compute; reflexivity.
  - reflexivity.
  - reflexivity.
  - reflexivity.
  - reflexivity.
  - reflexivity.
  - reflexivity.
Defined.

(** X10. A route message that cannot be decoded is isolated.  When
    [rtnl_route_alloc] or [rtnl_route_parse] fails on one message of a
    batch, the table after the batch is the table the batch would have
    left without that message, and so is the output but for at most one
    line on standard error where the message stood: the messages after it
    are processed as if it had not come. *)
Theorem undecodable_route_message_is_isolated
    (pre post : list (route_msg * bool)) (bad : route_msg * bool)
    (ht : HashTable) :
  wf_table ht → well_placed ht →
  decodes bad.1 = false →
  ∃ ht' lines1 err lines2,
    (∀ out, deliver route_cb (pre ++ bad :: post) ht out
            = Some (ht', out ++ lines1 ++ err ++ lines2))
    ∧ (∀ out, deliver route_cb (pre ++ post) ht out
              = Some (ht', out ++ lines1 ++ lines2))
    ∧ (length err ≤ 1)%nat
    ∧ ∀ l, l ∈ err → ∃ text, l = Stderr text.
Proof.
  intros Hwf Hwp Hbad.
  set (Inv := λ ht, wf_table ht ∧ well_placed ht).
  assert (∀ m ht, Inv ht →
            ∃ act ht' lines,
              (∀ out, route_cb m ht out = Some (act, ht', out ++ lines))
              ∧ Inv ht') as Hkeeps.
  { intros m h [Hw Hp]. unfold route_cb.
    destruct (route_callback_invariant m.1 m.2 h Hw Hp)
      as (act & h' & lines & Hcb & _ & ? & ? & _).
    by exists act, h', lines. }
  destruct (deliver_invariant route_cb Inv Hkeeps pre ht)
    as (ht1 & lines1 & Hpre & Hinv1); [done|].
  destruct (deliver_invariant route_cb Inv Hkeeps post ht1)
    as (ht2 & lines2 & Hpost & _); [done|].
  assert (∃ act err, (∀ out, route_cb bad ht1 out = Some (act, ht1, out ++ err))
                     ∧ (length err ≤ 1)%nat
                     ∧ ∀ l, l ∈ err → ∃ text, l = Stderr text)
    as (act & err & Hcb & Hlen & Herr).
  { unfold route_cb.
    destruct (route_nlmsg_type bad.1) eqn:Ht.
    1-4,7: exists NL_SKIP, []; split_and!;
      [intros out; rewrite route_callback_undecoded, Ht by done;
       by rewrite app_nil_r | simpl; lia
      | intros l Hl; by apply elem_of_nil in Hl].
    all: eexists NL_OK, [Stderr _]; split_and!;
      [intros out; by rewrite route_callback_undecoded, Ht by done
      | simpl; lia
      | intros l ->%list_elem_of_singleton; eauto]. }
  exists ht2, lines1, err, lines2. split_and!; try done.
  - intros out. rewrite deliver_app, Hpre. simpl.
    rewrite Hcb. simpl. rewrite Hpost. by rewrite <- !app_assoc.
  - intros out. rewrite deliver_app, Hpre. simpl.
    rewrite Hpost. by rewrite <- !app_assoc.
Qed.

Lemma undecodable_route_message_is_isolated_witness :
  ∃ ht' lines1 err lines2,
    (∀ out, deliver route_cb
              ([(msg_route_a RTM_NEWROUTE 100, true)]
                 ++ (msg_unparsable, true) :: [(msg_no_nexthop, true)])
              empty_table out
            = Some (ht', out ++ lines1 ++ err ++ lines2))
    ∧ (∀ out, deliver route_cb
                ([(msg_route_a RTM_NEWROUTE 100, true)]
                   ++ [(msg_no_nexthop, true)]) empty_table out
              = Some (ht', out ++ lines1 ++ lines2))
    ∧ (length err ≤ 1)%nat
    ∧ ∀ l, l ∈ err → ∃ text, l = Stderr text.
Proof.
  apply (undecodable_route_message_is_isolated
           [(msg_route_a RTM_NEWROUTE 100, true)] [(msg_no_nexthop, true)]
           (msg_unparsable, true) empty_table).
  - apply empty_table_cache_state.
  - apply empty_table_cache_state.
  - reflexivity.
Defined.

(** X11. [addr_callback] reads the address of the first attribute of type
    [IFA_LOCAL] or [IFA_ADDRESS] and no other: when that attribute yields
    an address the event is reported with it, and when it yields none, or
    when the message has no such attribute, the callback prints nothing and
    reports no route, whatever the attributes after it hold. *)
Theorem addr_callback_reads_the_first_address_attribute_only
    (pre post : list rtattr) (a : rtattr) (index : Z)
    (ht : HashTable) (out : list Line) :
  wf_table ht →
  (∀ x, x ∈ pre → x.(rta_type) ≠ IFA_LOCAL ∧ x.(rta_type) ≠ IFA_ADDRESS) →
  a.(rta_type) = IFA_LOCAL ∨ a.(rta_type) = IFA_ADDRESS →
  addr_callback {| addr_nlmsg_type := RTM_DELADDR;
                   addr_data := Some {| ifa_index := index;
                                        ifa_attrs := pre ++ a :: post |} |}
    ht out
  = match a.(rta_addr) with
    | Some A =>
        Some (NL_OK, ht,
              out ++ AddressDeleted (buf_store INET6_ADDRSTRLEN A)
                       (to_int index)
                  :: map invalidated (owned_by (to_int index) (entries ht)))
    | None => Some (NL_OK, ht, out)
    end
  ∧ addr_callback {| addr_nlmsg_type := RTM_DELADDR;
                     addr_data := Some {| ifa_index := index;
                                          ifa_attrs := pre |} |} ht out
    = Some (NL_OK, ht, out).
Proof.
  intros Hwf Hpre Ha.
  assert (∀ rest, first_address (pre ++ rest) = first_address rest) as Hskip.
  { intros rest. induction pre as [|x pre IH]; simpl; [done|].
    destruct (Hpre x) as [H1 H2]; [left|].
    apply Z.eqb_neq in H1, H2. rewrite H1, H2. simpl.
    apply IH. intros y Hy. apply Hpre. by right. }
  unfold addr_callback. simpl. split.
  - rewrite Hskip. simpl.
    assert ((rta_type a =? IFA_LOCAL) || (rta_type a =? IFA_ADDRESS) = true)
      as -> by (destruct Ha as [-> | ->]; done).
    destruct (rta_addr a); simpl; [|done].
    rewrite find_by_ifindex_print by done. simpl. by rewrite <- app_assoc.
  - rewrite <- (app_nil_r pre), Hskip. done.
Qed.

Lemma addr_callback_reads_the_first_address_attribute_only_witness :
  addr_callback
    {| addr_nlmsg_type := RTM_DELADDR;
       addr_data :=
         Some {| ifa_index := 3;
                 ifa_attrs :=
                   [{| rta_type := 8; rta_addr := None |}]
                     ++ {| rta_type := IFA_ADDRESS; rta_addr := None |}
                     :: [{| rta_type := IFA_LOCAL;
                            rta_addr := Some "192.168.1.7"%string |}] |} |}
    (table_of [OpInsert true route_a]) []
  = Some (NL_OK, table_of [OpInsert true route_a], [])
  ∧ addr_callback
      {| addr_nlmsg_type := RTM_DELADDR;
         addr_data :=
           Some {| ifa_index := 3;
                   ifa_attrs := [{| rta_type := 8; rta_addr := None |}] |} |}
      (table_of [OpInsert true route_a]) []
    = Some (NL_OK, table_of [OpInsert true route_a], []).
Proof.
  apply (addr_callback_reads_the_first_address_attribute_only
           [{| rta_type := 8; rta_addr := None |}]
           [{| rta_type := IFA_LOCAL; rta_addr := Some "192.168.1.7"%string |}]
           {| rta_type := IFA_ADDRESS; rta_addr := None |} 3
           (table_of [OpInsert true route_a]) []).
  - split; vm_compute; reflexivity.
  - intros x ->%list_elem_of_singleton. split; discriminate.
  - right. reflexivity.
Defined.

(** ** [main] *)

Lemma held_app t1 t2 h : held (t1 ++ t2) h = held t1 h ≫= held t2.
Proof.
  revert h. induction t1 as [|e t1 IH]; intros h; simpl; [done|].
  destruct e; try apply IH; case_bool_decide; try done; apply IH.
Qed.

Lemma held_said out h : held (map Said out) h = Some h.
Proof. revert h. induction out as [|l out IH]; intros h; simpl; auto. Qed.

Lemma leave_exits code tr socks ht :
  wf_table ht →
  leave code tr socks ht
  = Exited code
      (tr ++ map SockFree socks
          ++ [TableFree (map FreedNode (entries ht)
                           ++ [FreedBuckets; FreedTable])]).
Proof. intros Hwf. unfold leave. by rewrite hash_table_free_spec. Qed.

Lemma main_enters_the_loop env ws :
  setup_fails env = false → join_fails env = false →
  main env ws
  = match main_loop env.(geterror) ws empty_table [] with
    | None => Undefined
    | Some (LoopWaiting, _, out) => Blocked (setup_trace ++ map Said out)
    | Some (LoopBroke, ht', out) =>
        leave EXIT_SUCCESS (setup_trace ++ map Said out)
          [route_sock; link_sock; addr_sock] ht'
    end.
Proof.
  unfold setup_fails, join_fails, main. intros Hs Hj.
  apply orb_false_iff in Hs as [[[Ha%negb_false_iff Hc1]%orb_false_iff
                                  Hc2]%orb_false_iff Hc3].
  apply andb_true_iff in Ha as [[[[-> ->]%andb_true_iff ->]%andb_true_iff
                                  ->]%andb_true_iff ->].
  apply orb_false_iff in Hj as [[Hj1 Hj2]%orb_false_iff Hj3].
  rewrite Hc1, Hc2, Hc3, Hj1, Hj2, Hj3. done.
Qed.

Lemma main_fails_in_setup env ws :
  setup_fails env = true →
  ∃ tr, main env ws = Exited EXIT_FAILURE tr ∧ held tr [] = Some [].
Proof.
  unfold setup_fails, main. intros Hs.
  destruct (malloc_table env), (calloc_buckets env);
    try (by eexists; split; [done|]).
  change (hash_table_init true true HASH_SIZE) with (Some empty_table).
  cbv zeta. pose proof empty_table_cache_state as (Hwf & _).
  destruct (alloc_route_sock env); simpl;
    [|rewrite leave_exits by done; by eexists].
  destruct (alloc_link_sock env); simpl;
    [|rewrite leave_exits by done; by eexists].
  destruct (alloc_addr_sock env); simpl;
    [|rewrite leave_exits by done; by eexists].
  simpl in Hs. rewrite Hs.
  rewrite leave_exits by done; by eexists.
Qed.

Lemma main_fails_to_join env ws :
  setup_fails env = false → join_fails env = true →
  ∃ tr, main env ws = Exited EXIT_SUCCESS tr ∧ held tr [] = Some [].
Proof.
  unfold setup_fails, join_fails, main. intros Hs Hj.
  apply orb_false_iff in Hs as [[[Ha%negb_false_iff Hc1]%orb_false_iff
                                  Hc2]%orb_false_iff Hc3].
  apply andb_true_iff in Ha as [[[[-> ->]%andb_true_iff ->]%andb_true_iff
                                  ->]%andb_true_iff ->].
  change (hash_table_init true true HASH_SIZE) with (Some empty_table).
  cbv zeta. pose proof empty_table_cache_state as (Hwf & _).
  rewrite Hc1, Hc2, Hc3. simpl.
  destruct (join_route env <? 0);
    [rewrite leave_exits by done; by eexists|].
  destruct (join_link env <? 0);
    [rewrite leave_exits by done; by eexists|].
  destruct (join_addr env <? 0);
    [rewrite leave_exits by done; by eexists|]. done.
Qed.

Lemma held_after_setup out :
  held (setup_trace ++ map Said out) []
  = Some [ResSock addr_sock; ResSock link_sock; ResSock route_sock; ResTable].
Proof. rewrite held_app. simpl. apply held_said. Qed.

Lemma held_after_cleanup out calls :
  held ((setup_trace ++ map Said out)
          ++ map SockFree [route_sock; link_sock; addr_sock]
          ++ [TableFree calls]) [] = Some [].
Proof. rewrite held_app, held_after_setup. done. Qed.

(** X12. The exit code of [main].  [main] never leaves the bucket array.
    It returns [EXIT_FAILURE] exactly when the set-up fails before the
    groups are joined: an allocation of the table or of a socket, or a
    connect.  When a group cannot be joined, and when [select] fails in
    the loop, it returns [EXIT_SUCCESS].  In no other case does it return:
    it is back in [select] when the wake-ups are used up. *)
Theorem main_exit_code (env : setup_env) (ws : list wakeup) :
  match main env ws with
  | Exited code _ =>
      code = (if setup_fails env then EXIT_FAILURE else EXIT_SUCCESS)
      ∧ (setup_fails env = true ∨ join_fails env = true
         ∨ ∃ w, w ∈ ws ∧ w.(select_ret) < 0)
  | Blocked _ =>
      setup_fails env = false ∧ join_fails env = false
      ∧ ∀ w, w ∈ ws → 0 ≤ w.(select_ret)
  | Undefined => False
  end.
Proof.
  destruct (setup_fails env) eqn:Hs.
  { destruct (main_fails_in_setup env ws Hs) as (tr & -> & _). auto. }
  destruct (join_fails env) eqn:Hj.
  { destruct (main_fails_to_join env ws Hs Hj) as (tr & -> & _). auto. }
  rewrite main_enters_the_loop by done.
  destruct (main_loop_invariant HASH_SIZE (geterror env) ws empty_table
              empty_table_cache_state)
    as (st & ht' & lines & Hloop & (Hwf & _) & Hst).
  rewrite Hloop. destruct st.
  - rewrite leave_exits by done. split; [done|].
    right. right. by apply Hst.
  - split_and!; try done. intros w Hw.
    destruct (Z.ltb_spec (select_ret w) 0) as [Hneg|]; [|done].
    assert (LoopWaiting = LoopBroke) by (apply Hst; eauto). done.
Qed.

(** X13. [main] frees what it allocated.  On every path on which it
    returns, each socket that [nl_socket_alloc] gave and the table that
    [hash_table_init] gave have been freed, once each and after their
    allocation, and nothing else has; while it waits in [select] it holds
    the table and the three sockets. *)
Theorem main_frees_what_it_allocated (env : setup_env) (ws : list wakeup) :
  match main env ws with
  | Exited _ trace => held trace [] = Some []
  | Blocked trace =>
      held trace []
      = Some [ResSock addr_sock; ResSock link_sock; ResSock route_sock;
              ResTable]
  | Undefined => True
  end.
Proof.
  destruct (setup_fails env) eqn:Hs.
  { by destruct (main_fails_in_setup env ws Hs) as (tr & -> & ?). }
  destruct (join_fails env) eqn:Hj.
  { by destruct (main_fails_to_join env ws Hs Hj) as (tr & -> & ?). }
  rewrite main_enters_the_loop by done.
  destruct (main_loop_invariant HASH_SIZE (geterror env) ws empty_table
              empty_table_cache_state)
    as (st & ht' & lines & Hloop & (Hwf & _) & _).
  rewrite Hloop. destruct st.
  - rewrite leave_exits by done. apply held_after_cleanup.
  - apply held_after_setup.
Qed.

(** A run of [main]: a route is added, its link goes, [select] fails. *)
Example main_run :
  main env_ok [wakeup_route_a_added; wakeup_link_3_deleted;
               wakeup_select_fails]
  = Exited EXIT_SUCCESS
      (setup_trace
         ++ [Said (RouteAdded "10.0.0.0/24" 3 "192.168.1.1" 100);
             Said (LinkDeleted 3);
             Said (RouteInvalidated "10.0.0.0/24" 3 "192.168.1.1" 100);
             Said (Stderr "select failed: Interrupted system call");
             SockFree route_sock; SockFree link_sock; SockFree addr_sock;
             TableFree [FreedNode route_a; FreedBuckets; FreedTable]]).
Proof. vm_compute. reflexivity. Qed.

(** X14. The number of nodes of a key after any sequence of operations.
    From a cache state, when every insert gets its node, the nodes of the
    key [(d, i)] left by a sequence of inserts and removes number
    [pending]: each insert of the key adds one, each remove of the key
    takes one away when there is one and none otherwise, and operations on
    other keys change nothing. *)
Theorem key_count_after_operations
    (d : string) (i : Z) (ops : list cache_op) (ht : HashTable) :
  wf_table ht → well_placed ht →
  (∀ node_ok r, OpInsert node_ok r ∈ ops → node_ok = true) →
  ∃ ht', run_ops ops ht = Some ht'
         ∧ key_count d i ht' = pending d i ops (key_count d i ht).
Proof.
  revert ht. induction ops as [|op ops IH]; intros ht Hwf Hwp Hok; simpl.
  - eauto.
  - assert (∀ node_ok r, OpInsert node_ok r ∈ ops → node_ok = true) as Hok'
      by (intros ok r Hr; apply (Hok ok r); by right).
    destruct op as [ok r|d' i']; simpl.
    + rewrite (Hok ok r) by left.
      destruct (hash_table_insert_spec ht r Hwf) as (next & _ & Heq).
      destruct (hash_table_insert true ht r) as [ht1|] eqn:Hins;
        [clear Heq|done]. simpl.
      destruct (hash_table_insert_entries ht r _ Hwf Hins) as (Hwf' & _ & _).
      pose proof (hash_table_insert_well_placed ht r _ Hwf Hwp Hins) as Hwp'.
      destruct (IH _ Hwf' Hwp' Hok') as (ht' & Hrun & Hcount).
      exists ht'. split; [done|]. rewrite Hcount.
      rewrite (key_count_insert d i ht r _ Hwf Hins).
      by destruct (key_match d i r).
    + destruct (hash_table_remove_spec ht d' i' Hwf) as (cur & _ & Heq).
      destruct (hash_table_remove ht d' i') as [ht1|] eqn:Hrem;
        [clear Heq|done]. simpl.
      destruct (hash_table_remove_invariant ht d' i' _ Hwf Hwp Hrem)
        as (Hwf' & Hwp' & _).
      destruct (IH _ Hwf' Hwp' Hok') as (ht' & Hrun & Hcount).
      exists ht'. split; [done|]. rewrite Hcount.
      destruct ((strcmp d' d =? 0) && (i' =? i)) eqn:E.
      * by rewrite (key_count_remove_same d i d' i' ht _ Hwf Hwp E Hrem).
      * by rewrite (key_count_remove_other d i d' i' ht _ Hwf Hwp E Hrem).
Qed.

Lemma key_count_after_operations_witness :
  ∃ ht', run_ops [OpRemove "10.0.0.0/24" 3; OpInsert true route_a;
                  OpInsert true route_a2; OpInsert true route_b;
                  OpRemove "10.0.0.0/24" 3] empty_table = Some ht'
         ∧ key_count "10.0.0.0/24" 3 ht'
           = pending "10.0.0.0/24" 3
               [OpRemove "10.0.0.0/24" 3; OpInsert true route_a;
                OpInsert true route_a2; OpInsert true route_b;
                OpRemove "10.0.0.0/24" 3]
               (key_count "10.0.0.0/24" 3 empty_table).
Proof.
  apply (key_count_after_operations "10.0.0.0/24" 3
           [OpRemove "10.0.0.0/24" 3; OpInsert true route_a;
            OpInsert true route_a2; OpInsert true route_b;
            OpRemove "10.0.0.0/24" 3] empty_table).
  - apply empty_table_cache_state.
  - apply empty_table_cache_state.
  - intros ok r Hr. apply list_elem_of_In in Hr. simpl in Hr.
    destruct Hr as [H|[H|[H|[H|[H|[]]]]]]; congruence.
Defined.

(** * The second program *)

Lemma check_route_appends I r st out :
  CacheMngr.check_route I r st out
  = ((CacheMngr.check_route I r st []).1,
     out ++ (CacheMngr.check_route I r st []).2).
Proof.
  unfold CacheMngr.check_route.
  destruct (negb (CacheMngr.rt_family r =? CacheMngr.AF_INET));
    [by rewrite app_nil_r|].
  destruct (CacheMngr.rt_nexthop r) as [nh|]; simpl.
  - destruct (nh_ifindex nh =? I); simpl; [done|by rewrite app_nil_r].
  - destruct (CacheMngr.route_ifindex st =? I); simpl;
      [done|by rewrite app_nil_r].
Qed.

Lemma check_routes_loop_appends I objs st out :
  CacheMngr.check_routes_loop I objs st out
  = out ++ CacheMngr.check_routes_loop I objs st [].
Proof.
  revert st out. induction objs as [|r objs IH]; intros st out; simpl.
  - by rewrite app_nil_r.
  - rewrite check_route_appends.
    destruct (CacheMngr.check_route I r st []) as [st' l] eqn:E. simpl.
    rewrite (IH st' (out ++ l)), (IH st' l). by rewrite app_assoc.
Qed.

(** On a route that shows destination, nexthop and gateway the locals left
    by earlier iterations play no part. *)
Lemma check_route_complete I r st out :
  CacheMngr.complete r = true →
  ∃ st',
    CacheMngr.check_route I r st out
    = (st', out ++ map invalidated (owned_by I [CacheMngr.route_info_of r]))
    ∧ CacheMngr.route_ifindex st' = ifindex (CacheMngr.route_info_of r)
    ∧ CacheMngr.dst_str st' = destination (CacheMngr.route_info_of r)
    ∧ CacheMngr.gw_str st' = gateway (CacheMngr.route_info_of r).
Proof.
  unfold CacheMngr.complete, CacheMngr.check_route.
  intros [Hf Hc]%andb_true_iff. rewrite Hf. simpl.
  destruct r as [fam [dst|] [[i [gw|]]|] pr]; simpl in *; try done.
  unfold owned_by. rewrite filter_cons. simpl.
  destruct (Z.eqb_spec i I).
  - rewrite decide_True by done. by eexists.
  - rewrite decide_False by done. simpl. rewrite app_nil_r. by eexists.
Qed.

Lemma check_routes_loop_complete I cache st out :
  (∀ r, r ∈ cache → CacheMngr.rt_family r = CacheMngr.AF_INET →
        CacheMngr.complete r = true) →
  CacheMngr.check_routes_loop I cache st out
  = out ++ map invalidated
             (owned_by I
                (map CacheMngr.route_info_of
                   (filter (λ r, CacheMngr.rt_family r = CacheMngr.AF_INET)
                      cache))).
Proof.
  revert st out. induction cache as [|r cache IH]; intros st out Hall; simpl.
  - by rewrite app_nil_r.
  - assert (∀ x, x ∈ cache → CacheMngr.rt_family x = CacheMngr.AF_INET →
                 CacheMngr.complete x = true) as Hall'
      by (intros x Hx; apply Hall; by right).
    rewrite filter_cons.
    destruct (decide (CacheMngr.rt_family r = CacheMngr.AF_INET)) as [Hf|Hf].
    + destruct (check_route_complete I r st out) as (st' & -> & _);
        [apply Hall; [left|done]|].
      rewrite IH by done. simpl. unfold owned_by.
      rewrite (filter_cons _ (CacheMngr.route_info_of r)).
      rewrite !filter_cons, filter_nil.
      case_decide; simpl; [by rewrite <- app_assoc|by rewrite app_nil_r].
    + unfold CacheMngr.check_route.
      apply Z.eqb_neq in Hf. rewrite Hf. simpl. by apply IH.
Qed.

(** X15. The scan of the second program over a cache whose IPv4 routes
    all show a destination, a nexthop and its gateway reports exactly the
    IPv4 routes whose first nexthop leaves through the interface asked for,
    one line each in cache order, with the route's own four fields; routes
    of other families are passed over. *)
Theorem check_routes_reports_the_complete_routes_of_the_interface
    (cache : list CacheMngr.rtnl_route) (I : Z) (out : list Line) :
  (∀ r, r ∈ cache → CacheMngr.rt_family r = CacheMngr.AF_INET →
        CacheMngr.complete r = true) →
  CacheMngr.check_routes_for_ifindex cache I out
  = out ++ map invalidated
             (owned_by I
                (map CacheMngr.route_info_of
                   (filter (λ r, CacheMngr.rt_family r = CacheMngr.AF_INET)
                      cache))).
Proof. intros Hall. by apply check_routes_loop_complete. Qed.

Lemma check_routes_reports_the_complete_routes_of_the_interface_witness :
  CacheMngr.check_routes_for_ifindex [cm_route_v6; cm_route_b; cm_route_a] 3 []
  = [RouteInvalidated "10.0.0.0/24" 3 "192.168.1.1" 100].
Proof.
  apply (check_routes_reports_the_complete_routes_of_the_interface
           [cm_route_v6; cm_route_b; cm_route_a] 3 []).
  intros r Hr Hf. apply list_elem_of_In in Hr. simpl in Hr.
  destruct Hr as [<-|[<-|[<-|[]]]]; [discriminate|reflexivity|reflexivity].
Defined.

Lemma check_routes_loop_app I pre rest st out :
  ∃ st1 out1,
    CacheMngr.check_routes_loop I (pre ++ rest) st out
    = CacheMngr.check_routes_loop I rest st1 (out ++ out1).
Proof.
  revert st out. induction pre as [|r pre IH]; intros st out; simpl.
  - exists st, []. by rewrite app_nil_r.
  - rewrite check_route_appends.
    destruct (CacheMngr.check_route I r st []) as [st' l]. simpl.
    destruct (IH st' (out ++ l)) as (st1 & out1 & ->).
    exists st1, (l ++ out1). by rewrite app_assoc.
Qed.

(** X16. The locals of the scan of the second program outlive the
    iteration that set them.  An IPv4 route without nexthop that follows,
    in the cache, a route of interface [I] is reported for [I] as well:
    under the interface index and the gateway of the route before it, and
    under that route's destination too when it shows none of its own. *)
Theorem check_routes_reports_a_route_without_nexthop_under_the_previous_owner
    (pre post : list CacheMngr.rtnl_route) (r1 r2 : CacheMngr.rtnl_route)
    (I : Z) (out : list Line) :
  CacheMngr.complete r1 = true →
  ifindex (CacheMngr.route_info_of r1) = I →
  CacheMngr.rt_family r2 = CacheMngr.AF_INET →
  CacheMngr.rt_nexthop r2 = None →
  ∃ out1 out2,
    CacheMngr.check_routes_for_ifindex (pre ++ r1 :: r2 :: post) I out
    = out ++ out1
        ++ [invalidated (CacheMngr.route_info_of r1);
            RouteInvalidated
              (match CacheMngr.rt_dst r2 with
               | Some dst => buf_store INET6_ADDRSTRLEN dst
               | None => destination (CacheMngr.route_info_of r1)
               end)
              I (gateway (CacheMngr.route_info_of r1))
              (to_int (CacheMngr.rt_priority r2))]
        ++ out2.
Proof.
  intros Hc1 HI Hf2 Hn2. unfold CacheMngr.check_routes_for_ifindex.
  destruct (check_routes_loop_app I pre (r1 :: r2 :: post)
              {| CacheMngr.dst_str := "unknown"; CacheMngr.gw_str := "none";
                 CacheMngr.route_ifindex := -1 |} out)
    as (st1 & out1 & ->).
  simpl.
  destruct (check_route_complete I r1 st1 (out ++ out1) Hc1)
    as (st2 & -> & Hi & Hd & Hg).
  unfold owned_by. rewrite filter_cons, decide_True, filter_nil by done.
  unfold CacheMngr.check_route at 1. rewrite Hf2, Hn2. simpl.
  rewrite Hi, HI, Z.eqb_refl, Hd, Hg.
  rewrite check_routes_loop_appends.
  exists out1, (CacheMngr.check_routes_loop I post
                  {| CacheMngr.dst_str :=
                       match CacheMngr.rt_dst r2 with
                       | Some dst => buf_store INET6_ADDRSTRLEN dst
                       | None => destination (CacheMngr.route_info_of r1)
                       end;
                     CacheMngr.gw_str := gateway (CacheMngr.route_info_of r1);
                     CacheMngr.route_ifindex := I |} []).
  by rewrite <- !app_assoc.
Qed.

Lemma check_routes_reports_a_route_without_nexthop_witness :
  ∃ out1 out2,
    CacheMngr.check_routes_for_ifindex
      ([cm_route_b] ++ cm_route_a :: cm_route_bare :: []) 3 []
    = [] ++ out1
        ++ [invalidated (CacheMngr.route_info_of cm_route_a);
            RouteInvalidated "10.0.9.0/24" 3 "192.168.1.1" 7]
        ++ out2.
Proof.
  apply (check_routes_reports_a_route_without_nexthop_under_the_previous_owner
           [cm_route_b] [] cm_route_a cm_route_bare 3 []).
  - reflexivity.
  - reflexivity.
  - reflexivity.
  - reflexivity.
Defined.

(** The stale report next to what [route_change] prints for the same
    route, whose locals are fresh: no owner, no gateway. *)
Example route_without_nexthop_in_both_functions :
  CacheMngr.check_routes_for_ifindex [cm_route_a; cm_route_bare] 3 []
  = [RouteInvalidated "10.0.0.0/24" 3 "192.168.1.1" 100;
     RouteInvalidated "10.0.9.0/24" 3 "192.168.1.1" 7]
  ∧ CacheMngr.route_change cm_route_bare CacheMngr.NL_ACT_NEW []
    = [CacheMngr.Common (RouteAdded "10.0.9.0/24" (-1) "none" 7)].
Proof. vm_compute. done. Qed.

(** X17. The two programs report the same routes.  When the table of the
    first program holds the IPv4 routes of the cache of the second, each
    with destination, nexthop and gateway, a deleted link makes both print
    the "Link deleted" line and then the same "Route invalidated" lines,
    up to their order. *)
Theorem both_monitors_report_the_same_routes
    (cache : list CacheMngr.rtnl_route) (ht : HashTable) (I : Z) :
  wf_table ht →
  (∀ r, r ∈ cache → CacheMngr.rt_family r = CacheMngr.AF_INET →
        CacheMngr.complete r = true) →
  entries ht
  ≡ₚ map CacheMngr.route_info_of
       (filter (λ r, CacheMngr.rt_family r = CacheMngr.AF_INET) cache) →
  ∃ recs1 recs2,
    on_link_removed I ht [] = Some (NL_OK, ht, LinkDeleted I :: recs1)
    ∧ CacheMngr.link_change cache I CacheMngr.NL_ACT_DEL []
      = CacheMngr.Common (LinkDeleted I) :: map CacheMngr.Common recs2
    ∧ recs1 ≡ₚ recs2.
Proof.
  intros Hwf Hall Hperm.
  eexists _, _. split_and!.
  - by rewrite on_link_removed_spec.
  - unfold CacheMngr.link_change, CacheMngr.check_routes_for_ifindex. simpl.
    by rewrite check_routes_loop_complete.
  - simpl. unfold owned_by. by rewrite Hperm.
Qed.

Lemma both_monitors_report_the_same_routes_witness :
  ∃ recs1 recs2,
    on_link_removed 3 (table_of [OpInsert true route_a; OpInsert true route_b])
      []
    = Some (NL_OK, table_of [OpInsert true route_a; OpInsert true route_b],
            LinkDeleted 3 :: recs1)
    ∧ CacheMngr.link_change [cm_route_v6; cm_route_b; cm_route_a] 3
        CacheMngr.NL_ACT_DEL []
      = CacheMngr.Common (LinkDeleted 3) :: map CacheMngr.Common recs2
    ∧ recs1 ≡ₚ recs2.
Proof.
  apply (both_monitors_report_the_same_routes
           [cm_route_v6; cm_route_b; cm_route_a]
           (table_of [OpInsert true route_a; OpInsert true route_b]) 3).
  - split; vm_compute; reflexivity.
  - intros r Hr Hf. apply list_elem_of_In in Hr. simpl in Hr.
    destruct Hr as [<-|[<-|[<-|[]]]]; [discriminate|reflexivity|reflexivity].
  - vm_compute. reflexivity.
Defined.
